(** * The pairing page of the ICE daemon

    [src/ice_runtime/daemon/ui/daemon.js] is the script of the daemon's
    pairing page: it polls the daemon for pending pairing requests, renders
    the request it picks and posts the operator's decision.  This file
    embeds the three handlers of the script ([fetchRequests], [approve],
    [dismiss]) and its top-level statements, and models the service the
    script talks to, which is described in the specification only.  The
    definitions come first, what is proved of them after. *)

From Stdlib Require Import ZArith String Ascii List Lia.
From stdpp Require Import base option list gmap strings sorting pretty.

#[local] Set Warnings "-register-all".
#[local] Open Scope string_scope.
#[local] Open Scope list_scope.
#[local] Open Scope Z_scope.

(** ** What the script takes from its host

    The script never computes with numbers and never looks inside the case
    mapping: a number met in a response body is only tested for truthiness
    or printed in a template, and [toUpperCase] is the browser's.  Both are
    taken from the host.  [num_of_nat] is the number a [length] property
    holds.  So is the parsing of markup: [parse_status_row html] is the text
    of the element with the id [daemon-status-row] in the tree the browser
    builds from [html], [None] when that tree has no such element. *)

Class Host := {
  num : Type;
  num_of_nat : nat → num;
  num_truthy : num → bool;
  num_text : num → string;
  toUpperCase : string → string;
  parse_status_row : string → option string;
  num_truthy_of_nat : ∀ n : nat, num_truthy (num_of_nat n) = negb (Nat.eqb n 0)
}.

(** The double quote, which the markup of the script is full of. *)
Definition q : string := String "034"%char EmptyString.

(** The line feed of a template literal that runs over several lines. *)
Definition nl : string := String "010"%char EmptyString.

(** [occurs p s]: the text [p] stands somewhere in [s]. *)
Fixpoint occurs (p s : string) : bool :=
  String.prefix p s ||
  match s with
  | EmptyString => false
  | String _ s' => occurs p s'
  end.

Section JavaScript.
Context {host : Host}.

(** ** Values

    What [res.json()] can produce, and [undefined] for a property that is
    not there.  An object is a finite map from its own keys. *)

Inductive jsval : Type :=
  | JUndefined
  | JNull
  | JBool (b : bool)
  | JNum (n : num)
  | JStr (s : string)
  | JArr (l : list jsval)
  | JObj (o : gmap string jsval).

(** ToBoolean. *)
Definition truthy (v : jsval) : bool :=
  match v with
  | JUndefined | JNull => false
  | JBool b => b
  | JNum n => num_truthy n
  | JStr s => negb (String.eqb s EmptyString)
  | JArr _ | JObj _ => true
  end.

(** [a || b] and [a && b] on values that are already computed (neither
    operand of the script's uses has an effect of its own except a property
    read, which the handlers sequence themselves). *)
Definition js_or (a b : jsval) : jsval := if truthy a then a else b.

(** [v === "s"] against a string literal: no conversion, the value has to
    be that very string. *)
Definition strict_eq_str (v : jsval) (s : string) : bool :=
  match v with
  | JStr t => String.eqb t s
  | _ => false
  end.

(** ToString, as a template literal applies it to a substitution.  [None]
    stands for the TypeError of an object that cannot be converted: a parsed
    object inherits [Object.prototype.toString] unless a key of its own
    named [toString] hides it, and such a key never holds a function.
    Arrays are joined with commas, [null] and [undefined] elements printing
    as nothing. *)
Fixpoint to_string (v : jsval) : option string :=
  match v with
  | JUndefined => Some "undefined"
  | JNull => Some "null"
  | JBool true => Some "true"
  | JBool false => Some "false"
  | JNum n => Some (num_text n)
  | JStr s => Some s
  | JArr l =>
      (fix join (l : list jsval) : option string :=
         match l with
         | [] => Some EmptyString
         | x :: rest =>
             let item :=
               match x with
               | JUndefined | JNull => Some EmptyString
               | _ => to_string x
               end in
             match rest with
             | [] => item
             | _ :: _ =>
                 match item, join rest with
                 | Some a, Some b => Some (a ++ "," ++ b)%string
                 | _, _ => None
                 end
             end
         end) l
  | JObj o =>
      match o !! "toString" with
      | None => Some "[object Object]"
      | Some _ => None
      end
  end.

(** ** The page, the network and the console *)

(** The two elements the script looks up, by what they were last given.
    [content] is the markup [#daemon-content] was last given, as the page
    was served or by an assignment to its [innerHTML]; [status_row] is the
    text of [#daemon-status-row]; [None] when the document has no such
    element.  The status row comes with the card, so it stands inside
    [#daemon-content]: [content] is the markup that was assigned, which is
    not what reading [innerHTML] back gives once the row has a text. *)
Record page := {
  content : option string;
  status_row : option string
}.

Inductive element := daemon_content | daemon_status_row.

Inductive exn :=
  | NetworkError   (* [fetch] rejected *)
  | SyntaxError    (* [res.json()] rejected: the body is no JSON *)
  | TypeError.     (* a property of [null] or [undefined], a call of what is no function *)

Inductive callback :=
  | cb_fetchRequests   (* [fetchRequests] *)
  | cb_window_close.   (* [() => { window.close(); }] *)

(** A request as [fetch] is given it.  [body] is the value handed to
    [JSON.stringify]. *)
Record http_request := {
  method : string;
  url : string;
  headers : list (string * string);
  body : option jsval
}.

(** A response: its status code, and the value its body parses to ([None]
    when the body is no JSON). *)
Record response := {
  http_status : Z;
  json_body : option jsval
}.

(** How a [fetch] settles. *)
Inductive fetch_outcome :=
  | Rejected
  | Resolved (res : response).

Record world := {
  dom : page;
  console : list (string * exn);        (* [console.error] lines, oldest first *)
  network : list http_request;          (* requests sent, oldest first *)
  timeouts : list (callback * Z);       (* [setTimeout] registrations *)
  intervals : list (callback * Z);      (* [setInterval] registrations *)
  closed : bool                         (* [window.close()] was called *)
}.

(** ** Statements: state and exceptions *)

Inductive completion (A : Type) :=
  | Normal (a : A)
  | Throw (e : exn).
#[global] Arguments Normal {A} a.
#[global] Arguments Throw {A} e.

Definition JS (A : Type) : Type := world → completion A * world.

#[global] Instance JS_ret : MRet JS := λ A a w, (Normal a, w).

#[global] Instance JS_bind : MBind JS := λ A B k m w,
  match m w with
  | (Normal a, w') => k a w'
  | (Throw e, w') => (Throw e, w')
  end.

Definition throw {A} (e : exn) : JS A := λ w, (Throw e, w).

(** [try { m } catch (err) { h err }] *)
Definition try_catch {A} (m : JS A) (h : exn → JS A) : JS A := λ w,
  match m w with
  | (Normal a, w') => (Normal a, w')
  | (Throw e, w') => h e w'
  end.

(** The world after the page was given the elements [p], after
    [console.error(msg, err)], after the request [req] went out. *)
Definition set_dom (p : page) (w : world) : world :=
  {| dom := p; console := console w; network := network w;
     timeouts := timeouts w; intervals := intervals w; closed := closed w |}.

Definition logged (msg : string) (err : exn) (w : world) : world :=
  {| dom := dom w; console := console w ++ [(msg, err)]; network := network w;
     timeouts := timeouts w; intervals := intervals w; closed := closed w |}.

Definition sent (req : http_request) (w : world) : world :=
  {| dom := dom w; console := console w; network := network w ++ [req];
     timeouts := timeouts w; intervals := intervals w; closed := closed w |}.

(** [console.error(msg, err)] *)
Definition console_error (msg : string) (err : exn) : JS unit := λ w,
  (Normal tt, logged msg err w).

(** [await fetch(...)], settled as [net] says. *)
Definition fetch (req : http_request) (net : fetch_outcome) : JS response := λ w,
  match net with
  | Rejected => (Throw NetworkError, sent req w)
  | Resolved res => (Normal res, sent req w)
  end.

(** [res.ok]: the status is in the range 200-299. *)
Definition res_ok (res : response) : bool :=
  (200 <=? http_status res) && (http_status res <=? 299).

(** [await res.json()] *)
Definition res_json (res : response) : JS jsval :=
  match json_body res with
  | Some v => mret v
  | None => throw SyntaxError
  end.

(** [setTimeout(cb, ms)] and [setInterval(cb, ms)] *)
Definition after_timeout (cb : callback) (ms : Z) (w : world) : world :=
  {| dom := dom w; console := console w; network := network w;
     timeouts := timeouts w ++ [(cb, ms)]; intervals := intervals w;
     closed := closed w |}.

Definition setTimeout (cb : callback) (ms : Z) : JS unit := λ w,
  (Normal tt, after_timeout cb ms w).

Definition setInterval (cb : callback) (ms : Z) : JS unit := λ w,
  (Normal tt,
   {| dom := dom w; console := console w; network := network w;
      timeouts := timeouts w; intervals := intervals w ++ [(cb, ms)];
      closed := closed w |}).

(** [window.close()] *)
Definition window_close : JS unit := λ w,
  (Normal tt,
   {| dom := dom w; console := console w; network := network w;
      timeouts := timeouts w; intervals := intervals w; closed := true |}).

(** [document.getElementById(id)]; [None] is [null]. *)
Definition getElementById (id : string) : JS (option element) := λ w,
  (Normal
     (if String.eqb id "daemon-content" then
        match content (dom w) with Some _ => Some daemon_content | None => None end
      else if String.eqb id "daemon-status-row" then
        match status_row (dom w) with Some _ => Some daemon_status_row | None => None end
      else None),
   w).

(** The status row a piece of markup brings with it, as the browser parses
    the markup. *)
Definition mounted_row (html : string) : option string := parse_status_row html.

(** [el.innerHTML = html].  The children of [#daemon-content] are rebuilt
    from the markup, the status row among them: the row the page had is
    gone, the row it has now is the one of the markup.  (The script assigns
    markup to [#daemon-content] only.) *)
Definition set_innerHTML (el : option element) (html : string) : JS unit := λ w,
  match el with
  | None => (Throw TypeError, w)
  | Some daemon_content =>
      (Normal tt, set_dom {| content := Some html; status_row := mounted_row html |} w)
  | Some daemon_status_row =>
      (Normal tt, set_dom {| content := content (dom w); status_row := Some html |} w)
  end.

(** [el.textContent = text].  The row gets its text; no markup is assigned
    to [#daemon-content], whose [content] stays the markup it was given.
    (The script assigns text to [#daemon-status-row] only.) *)
Definition set_textContent (el : option element) (text : string) : JS unit := λ w,
  match el with
  | None => (Throw TypeError, w)
  | Some daemon_status_row =>
      (Normal tt, set_dom {| content := content (dom w); status_row := Some text |} w)
  | Some daemon_content =>
      (Normal tt, set_dom {| content := Some text; status_row := None |} w)
  end.

(** ** Property reads

    [v.k] for the keys the script reads ([requests], [length], [client_ip],
    [request_id], [status], [ok]): none of them is inherited from a
    prototype, so an object answers with its own key or [undefined], an
    array and a string know [length], and [null] and [undefined] throw.
    Strings are byte strings here, so the [length] of a string counts bytes
    where the browser counts code units; the two agree on whether the
    string is empty, which is all the script asks. *)
Definition get (v : jsval) (k : string) : JS jsval :=
  match v with
  | JUndefined | JNull => throw TypeError
  | JObj o => mret (default JUndefined (o !! k))
  | JArr l =>
      mret (if String.eqb k "length" then JNum (num_of_nat (length l)) else JUndefined)
  | JStr s =>
      mret (if String.eqb k "length" then JNum (num_of_nat (String.length s)) else JUndefined)
  | JBool _ | JNum _ => mret JUndefined
  end.

(** [v[0]]: the first element of an array, the key ["0"] of an object, the
    first character of a string (its first byte here). *)
Definition get_first (v : jsval) : JS jsval :=
  match v with
  | JUndefined | JNull => throw TypeError
  | JArr l => mret (default JUndefined (head l))
  | JObj o => mret (default JUndefined (o !! "0"))
  | JStr s =>
      mret (match s with
            | EmptyString => JUndefined
            | String c _ => JStr (String c EmptyString)
            end)
  | JBool _ | JNum _ => mret JUndefined
  end.

(** [v.toUpperCase()]: only a string has the method. *)
Definition call_toUpperCase (v : jsval) : JS string :=
  match v with
  | JStr s => mret (toUpperCase s)
  | _ => throw TypeError
  end.

(** A substitution of a template literal. *)
Definition subst (v : jsval) : JS string :=
  match to_string v with
  | Some s => mret s
  | None => throw TypeError
  end.

End JavaScript.

(** ** The script *)

Section Script.
Context {host : Host}.

(** The markup of the empty state. *)
Definition empty_state : string :=
  "<p class=" ++ q ++ "daemon-empty" ++ q ++ ">No pending pairing requests.</p>".

(** The template literal of the request card, with its five substitutions
    in the order of the source: the client, the request id, the status in
    capitals, and the request id inside the two [onclick] attributes. *)
Definition card (client id status id_dismiss id_approve : string) : string :=
  nl ++
  "      <div class=" ++ q ++ "daemon-request-card" ++ q ++ ">" ++ nl ++
  "        <div class=" ++ q ++ "daemon-label" ++ q ++ ">Incoming flake</div>" ++ nl ++
  "        <div class=" ++ q ++ "daemon-value" ++ q ++ "><strong>Client</strong> " ++
             client ++ "</div>" ++ nl ++
  "        <div class=" ++ q ++ "daemon-value" ++ q ++ "><strong>Request ID</strong> " ++
             id ++ "</div>" ++ nl ++
  "        <div class=" ++ q ++ "daemon-value" ++ q ++ ">" ++ nl ++
  "          <span class=" ++ q ++ "daemon-status-pill" ++ q ++ ">" ++ nl ++
  "            <span>❄</span>" ++ nl ++
  "            <span>" ++ status ++ "</span>" ++ nl ++
  "          </span>" ++ nl ++
  "        </div>" ++ nl ++
  "        <div class=" ++ q ++ "daemon-actions" ++ q ++ ">" ++ nl ++
  "          <button class=" ++ q ++ "daemon-btn daemon-btn-ghost" ++ q ++
             " onclick=" ++ q ++ "dismiss('" ++ id_dismiss ++ "')" ++ q ++
             ">Ignore</button>" ++ nl ++
  "          <button class=" ++ q ++ "daemon-btn daemon-btn-primary" ++ q ++
             " onclick=" ++ q ++ "approve('" ++ id_approve ++ "')" ++ q ++
             ">Accept flake</button>" ++ nl ++
  "        </div>" ++ nl ++
  "        <div id=" ++ q ++ "daemon-status-row" ++ q ++
             " class=" ++ q ++ "daemon-success" ++ q ++ "></div>" ++ nl ++
  "      </div>" ++ nl ++
  "    ".

Definition GET (path : string) : http_request :=
  {| method := "GET"; url := path; headers := []; body := None |}.

(** [{ method: "POST", headers: { "Content-Type": "application/json" },
      body: JSON.stringify({ request_id: id }) }] *)
Definition POST (path : string) (id : string) : http_request :=
  {| method := "POST"; url := path;
     headers := [("Content-Type", "application/json")];
     body := Some (JObj {[ "request_id" := JStr id ]}) |}.

(** [fetchRequests].  [net] is how its [fetch] settles.  Everything after
    the last [await] runs in one piece, so the handler is one step on the
    world. *)
Definition fetchRequests (net : fetch_outcome) : JS unit :=
  try_catch
    (res ← fetch (GET "/daemon/pairing/requests") net;
     if negb (res_ok res) then mret tt
     else
       data ← res_json res;
       el ← getElementById "daemon-content";
       requests ← get data "requests";
       let reqs := js_or requests (JArr []) in
       len ← get reqs "length";
       if negb (truthy len) then set_innerHTML el empty_state
       else
         r ← get_first reqs;
         client_ip ← get r "client_ip";
         client ← subst (js_or client_ip (JStr "unknown"));
         request_id ← get r "request_id";
         id ← subst request_id;
         status ← get r "status";
         upper ← call_toUpperCase status;
         request_id ← get r "request_id";
         id_dismiss ← subst request_id;
         request_id ← get r "request_id";
         id_approve ← subst request_id;
         set_innerHTML el (card client id upper id_dismiss id_approve))
    (λ err, console_error "Failed to fetch pairing requests" err).

Definition trusted_message : string :=
  "❄ Flake added – this host is now trusted by ICE Studio.".

Definition failed_message : string := "Failed to approve flake.".

(** [approve(id)] *)
Definition approve (id : string) (net : fetch_outcome) : JS unit :=
  try_catch
    (res ← fetch (POST "/daemon/pairing/approve" id) net;
     data ← res_json res;
     row ← getElementById "daemon-status-row";
     ok ← get data "ok";
     success ←
       (if truthy ok then
          status ← get data "status";
          mret (strict_eq_str status "approved")
        else mret false);
     if success : bool then
       set_textContent row trusted_message;;
       setTimeout cb_window_close 1500
     else set_textContent row failed_message)
    (λ err, console_error "Failed to approve pairing" err).

(** [dismiss(id)].  [net] settles its own [fetch], [net'] the one of the
    [fetchRequests()] it starts. *)
Definition dismiss (id : string) (net net' : fetch_outcome) : JS unit :=
  try_catch
    (_ ← fetch (POST "/daemon/pairing/dismiss" id) net;
     fetchRequests net')
    (λ err, console_error "Failed to dismiss pairing request" err).

(** The two statements at the top level of the script:
    [fetchRequests(); setInterval(fetchRequests, 4000);] *)
Definition main (net : fetch_outcome) : JS unit :=
  fetchRequests net;;
  setInterval cb_fetchRequests 4000.

(** A timer goes off. *)
Definition run_callback (cb : callback) (net : fetch_outcome) : JS unit :=
  match cb with
  | cb_fetchRequests => fetchRequests net
  | cb_window_close => window_close
  end.

(** The interval timers go off once, in the order they were registered;
    the [fetch] of a callback settles as [net] says. *)
Definition fire_intervals (net : fetch_outcome) (w : world) : world :=
  foldl (λ w' timer, (run_callback timer.1 net w').2) w (intervals w).

(** The page runs: the script is loaded, then the interval timers go off
    [length nets] times, the [fetch] of round k settling as the k-th element
    of [nets] says. *)
Definition poll (nets : list fetch_outcome) (w : world) : world :=
  foldl (λ w' net, fire_intervals net w') w nets.

End Script.

(** ** The handlers between their awaits

    A handler runs in one piece only from one [await] to the next.  While
    it waits, the timers go off, the buttons are clicked and other handlers
    go on.  Here the handlers are cut at their [await]s, and the page is
    run event by event. *)

Section Suspended.
Context {host : Host}.

(** [fetchRequests] from line 6 on; [data] is what [res.json()] gave. *)
Definition fetchRequests_render (data : jsval) : JS unit :=
  el ← getElementById "daemon-content";
  requests ← get data "requests";
  let reqs := js_or requests (JArr []) in
  len ← get reqs "length";
  if negb (truthy len) then set_innerHTML el empty_state
  else
    r ← get_first reqs;
    client_ip ← get r "client_ip";
    client ← subst (js_or client_ip (JStr "unknown"));
    request_id ← get r "request_id";
    id ← subst request_id;
    status ← get r "status";
    upper ← call_toUpperCase status;
    request_id ← get r "request_id";
    id_dismiss ← subst request_id;
    request_id ← get r "request_id";
    id_approve ← subst request_id;
    set_innerHTML el (card client id upper id_dismiss id_approve).

(** [fetchRequests] from the [await] of line 5 on, inside its [try]. *)
Definition fetchRequests_after_json (res : response) : JS unit :=
  try_catch
    (data ← res_json res;
     fetchRequests_render data)
    (λ err, console_error "Failed to fetch pairing requests" err).

(** [approve] from line 54 on. *)
Definition approve_show (data : jsval) : JS unit :=
  row ← getElementById "daemon-status-row";
  ok ← get data "ok";
  success ←
    (if truthy ok then
       status ← get data "status";
       mret (strict_eq_str status "approved")
     else mret false);
  if success : bool then
    set_textContent row trusted_message;;
    setTimeout cb_window_close 1500
  else set_textContent row failed_message.

(** [approve] from the [await] of line 53 on, inside its [try]. *)
Definition approve_after_json (res : response) : JS unit :=
  try_catch
    (data ← res_json res;
     approve_show data)
    (λ err, console_error "Failed to approve pairing" err).

(** Where a handler waits. *)
Inductive suspended :=
  | fetchRequests_at_fetch                    (* [fetchRequests], line 3 *)
  | fetchRequests_at_json (res : response)    (* [fetchRequests], line 5 *)
  | approve_at_fetch                          (* [approve], line 48 *)
  | approve_at_json (res : response)          (* [approve], line 53 *)
  | dismiss_at_fetch.                         (* [dismiss], line 71 *)

(** A handler goes on once what it waits for has settled: a [fetch] as
    [net] says, the body of [res] as [json_body res] says.  It runs to its
    next [await], where it waits again, or to its end; a rejection is thrown
    at the [await], inside the [try].  The [fetchRequests()] of line 76 is
    not awaited: [dismiss] ends when that call has sent its request. *)
Definition resume (t : suspended) (net : fetch_outcome) (w : world) :
    world * list suspended :=
  match t with
  | fetchRequests_at_fetch =>
      match net with
      | Rejected => (logged "Failed to fetch pairing requests" NetworkError w, [])
      | Resolved res =>
          if negb (res_ok res) then (w, []) else (w, [fetchRequests_at_json res])
      end
  | fetchRequests_at_json res => ((fetchRequests_after_json res w).2, [])
  | approve_at_fetch =>
      match net with
      | Rejected => (logged "Failed to approve pairing" NetworkError w, [])
      | Resolved res => (w, [approve_at_json res])
      end
  | approve_at_json res => ((approve_after_json res w).2, [])
  | dismiss_at_fetch =>
      match net with
      | Rejected => (logged "Failed to dismiss pairing request" NetworkError w, [])
      | Resolved _ =>
          (sent (GET "/daemon/pairing/requests") w, [fetchRequests_at_fetch])
      end
  end.

(** The page while it runs: the world, and the handlers that wait. *)
Record page_state := {
  current : world;
  awaiting : list suspended
}.

(** A call of a handler: it runs to its first [await], that is, it sends
    its request. *)
Definition call_fetchRequests (σ : page_state) : page_state :=
  {| current := sent (GET "/daemon/pairing/requests") (current σ);
     awaiting := awaiting σ ++ [fetchRequests_at_fetch] |}.

Definition call_approve (id : string) (σ : page_state) : page_state :=
  {| current := sent (POST "/daemon/pairing/approve" id) (current σ);
     awaiting := awaiting σ ++ [approve_at_fetch] |}.

Definition call_dismiss (id : string) (σ : page_state) : page_state :=
  {| current := sent (POST "/daemon/pairing/dismiss" id) (current σ);
     awaiting := awaiting σ ++ [dismiss_at_fetch] |}.

(** A timer goes off. *)
Definition fire (cb : callback) (σ : page_state) : page_state :=
  match cb with
  | cb_fetchRequests => call_fetchRequests σ
  | cb_window_close =>
      {| current := (window_close (current σ)).2; awaiting := awaiting σ |}
  end.

(** What happens on the page: the interval timers go off; the operator
    clicks Accept or Ignore of a card rendered with the identifier [id];
    what the [k]-th waiting handler waits for settles; the [k]-th timeout
    goes off, once. *)
Inductive event :=
  | Tick
  | Click_approve (id : string)
  | Click_dismiss (id : string)
  | Settle (k : nat) (net : fetch_outcome)
  | Timeout (k : nat).

Definition handle (σ : page_state) (e : event) : page_state :=
  match e with
  | Tick => foldl (λ σ' timer, fire timer.1 σ') σ (intervals (current σ))
  | Click_approve id => call_approve id σ
  | Click_dismiss id => call_dismiss id σ
  | Settle k net =>
      match awaiting σ !! k with
      | None => σ
      | Some t =>
          let '(w', more) := resume t net (current σ) in
          {| current := w'; awaiting := delete k (awaiting σ) ++ more |}
      end
  | Timeout k =>
      match timeouts (current σ) !! k with
      | None => σ
      | Some (cb, _) =>
          fire cb
            {| current :=
                 {| dom := dom (current σ); console := console (current σ);
                    network := network (current σ);
                    timeouts := delete k (timeouts (current σ));
                    intervals := intervals (current σ);
                    closed := closed (current σ) |};
               awaiting := awaiting σ |}
      end
  end.

(** A session: the events in the order they happen, in any interleaving
    of the handlers. *)
Definition session (events : list event) (σ : page_state) : page_state :=
  foldl handle σ events.




End Suspended.

(** A host to run the script on: whole numbers, printed in decimal, the
    case mapping of the ASCII letters, and a parser that finds the status
    row, empty, where the markup declares its id (the markup of the
    examples holds no comment and no text that would hide or fake it). *)
Definition upper_ascii (c : ascii) : ascii :=
  let n := nat_of_ascii c in
  if ((97 <=? n) && (n <=? 122))%nat then ascii_of_nat (n - 32) else c.

Fixpoint upper (s : string) : string :=
  match s with
  | EmptyString => EmptyString
  | String c s' => String (upper_ascii c) (upper s')
  end.

Definition ascii_host : Host := {|
  num := Z;
  num_of_nat := Z.of_nat;
  num_truthy := λ z, negb (z =? 0);
  num_text := pretty;
  toUpperCase := upper;
  parse_status_row := λ html,
    if occurs ("id=" ++ q ++ "daemon-status-row" ++ q) html
    then Some EmptyString else None;
  num_truthy_of_nat := λ n, match n with O => eq_refl | S _ => eq_refl end
|}.

(** * The service behind the endpoints

    The daemon that answers [/daemon/pairing/requests], [/approve] and
    [/dismiss] is not part of the sources; the definitions below follow the
    specification's description of it, component by component. *)

(** Modelled from the spec: the states of a pairing request (section 3);
    the state machine itself is written by the operations of the store. *)
Inductive Status := pending | approved | dismissed | expired.

#[global] Instance Status_eq_dec : EqDecision Status.
Proof. solve_decision. Defined.

(** Modelled from the spec: the PairingRequest record of section 3.  The
    spec leaves the form of the identifier open; here it is the number the
    store drew for it.  [client_ip] may be absent. *)
Record PairingRequest := {
  request_id : nat;
  client_ip : option string;
  status : Status;
  created_at : Z
}.

Definition with_status (s : Status) (r : PairingRequest) : PairingRequest :=
  {| request_id := request_id r; client_ip := client_ip r;
     status := s; created_at := created_at r |}.

(** Modelled from the spec: the TrustedClient record of section 3. *)
Record TrustedClient := {
  client_id : string;
  granted_at : Z
}.

(** Modelled from the spec: the error taxonomy of section 7, without the
    durability failure of the ledger, which this model does not have. *)
Inductive error := NotFound | InvalidTransition | AlreadyResolved | CapacityExceeded.

(** [older r1 r2]: [r1] was created no later than [r2]. *)
Definition older (r1 r2 : PairingRequest) : Prop := created_at r1 ≤ created_at r2.

#[global] Instance older_dec : RelDecision older.
Proof. intros r1 r2. unfold older. apply _. Defined.

#[global] Instance older_total : Total older.
Proof. intros r1 r2. unfold older. lia. Qed.

#[global] Instance older_trans : Transitive older.
Proof. intros r1 r2 r3. unfold older. lia. Qed.

Module RequestStore.

(** Modelled from the spec: the RequestStore of section 4.1, which is not
    in the sources.  The requests by identifier, the next identifier to
    draw (identifiers are never reused), the bound on pending requests
    and the length of the expiry window. *)
Record t := {
  requests : gmap nat PairingRequest;
  next_id : nat;
  capacity : nat;
  expiry_window : Z
}.

Definition empty (cap : nat) (window : Z) : t :=
  {| requests := ∅; next_id := 0; capacity := cap; expiry_window := window |}.

Definition with_requests (m : gmap nat PairingRequest) (s : t) : t :=
  {| requests := m; next_id := next_id s;
     capacity := capacity s; expiry_window := expiry_window s |}.

Definition is_pending (r : PairingRequest) : bool :=
  bool_decide (status r = pending).

(** The number of pending requests, which admission holds against the
    bound. *)
Definition pending_count (s : t) : nat :=
  length (filter (λ r, is_pending r = true) (map snd (map_to_list (requests s)))).

(** Modelled from the spec: [admit(client_ip) -> request_id] creates a new
    pending request and fails with CapacityExceeded if the number of
    pending requests exceeds the configured bound. *)
Definition admit_request (ip : option string) (now : Z) (s : t) : error + nat * t :=
  if bool_decide (capacity s < pending_count s)%nat then inl CapacityExceeded
  else
    let id := next_id s in
    let r := {| request_id := id; client_ip := ip;
                status := pending; created_at := now |} in
    inr (id, {| requests := <[id := r]> (requests s); next_id := S id;
                capacity := capacity s; expiry_window := expiry_window s |}).

(** Modelled from the spec: [r] has crossed the expiry threshold at [now],
    the window counted from [created_at]. *)
Definition crossed (window now : Z) (r : PairingRequest) : bool :=
  bool_decide (created_at r + window < now).

(** Modelled from the spec: the lazy transition to [expired], of a pending
    request past the threshold and of nothing else. *)
Definition expire (window now : Z) (r : PairingRequest) : PairingRequest :=
  if is_pending r && crossed window now r then with_status expired r else r.

(** Modelled from the spec: [list_pending()] returns the pending requests
    ordered by [created_at] ascending (oldest first), lazily excluding any
    that have crossed the expiry threshold (lazily transitioned to
    [expired] on read). *)
Definition list_pending (now : Z) (s : t) : list PairingRequest * t :=
  let s' := with_requests (expire (expiry_window s) now <$> requests s) s in
  (merge_sort older
     (filter (λ r, is_pending r = true) (map snd (map_to_list (requests s')))),
   s').

(** Modelled from the spec: [get(request_id) -> PairingRequest | NotFound]. *)
Definition get (id : nat) (s : t) : error + PairingRequest :=
  match requests s !! id with
  | Some r => inr r
  | None => inl NotFound
  end.

(** Modelled from the spec: [transition(request_id, new_status)] moves a
    request from [pending] to [approved] or [dismissed]; it fails with
    InvalidTransition if the request is not currently pending (including
    if it already expired) and with NotFound if the id is unknown.  A
    target other than [approved] and [dismissed] is no permitted
    transition. *)
Definition transition (id : nat) (new_status : Status) (s : t) : error + t :=
  match requests s !! id with
  | None => inl NotFound
  | Some r =>
      match status r, new_status with
      | pending, approved | pending, dismissed =>
          inr (with_requests (<[id := with_status new_status r]> (requests s)) s)
      | _, _ => inl InvalidTransition
      end
  end.

(** The operations of the store, and a sequence of them run from a store.
    A failed operation leaves the store as it was. *)
Inductive op :=
  | Admit (ip : option string) (now : Z)
  | ListPending (now : Z)
  | Get (id : nat)
  | Transition (id : nat) (new_status : Status).

Definition apply (s : t) (o : op) : t :=
  match o with
  | Admit ip now => match admit_request ip now s with inr (_, s') => s' | inl _ => s end
  | ListPending now => (list_pending now s).2
  | Get _ => s
  | Transition id new_status =>
      match transition id new_status s with inr s' => s' | inl _ => s end
  end.

Definition run (ops : list op) (s : t) : t := foldl apply s ops.

End RequestStore.

Module TrustLedger.

(** Modelled from the spec: the TrustLedger of section 4.2, which is not
    in the sources: the trusted clients in the order they were granted
    (issuance is append-only). *)
Abbreviation t := (list TrustedClient).

(** Modelled from the spec: [is_trusted(client_identity) -> bool]. *)
Definition is_trusted (identity : string) (l : t) : bool :=
  bool_decide (identity ∈ client_id <$> l).

(** Modelled from the spec: [grant(client_identity) -> {newly_granted}] is
    idempotent; if already trusted it returns [newly_granted=false]
    without touching [granted_at]. *)
Definition grant (identity : string) (now : Z) (l : t) : bool * t :=
  if is_trusted identity l then (false, l)
  else (true, l ++ [{| client_id := identity; granted_at := now |}]).

(** The records held for an identity. *)
Definition records (identity : string) (l : t) : list TrustedClient :=
  filter (λ c, client_id c = identity) l.

End TrustLedger.

(** Modelled from the spec: how a client identity is derived from a request
    is left open by the spec (section 9); the service takes the derivation
    as given. *)
Class Identity := identity_of : PairingRequest → string.

Module PairingService.

(** Modelled from the spec: the PairingService of section 4.3, which is
    not in the sources, over the store and the ledger. *)
Record t := {
  store : RequestStore.t;
  ledger : TrustLedger.t
}.

(** What [approve] answers: [{ok, status}], and the error behind an
    [ok=false]. *)
Record answer := {
  ok : bool;
  answer_status : option Status;
  failure : option error
}.

Definition not_found : answer :=
  {| ok := false; answer_status := None; failure := Some NotFound |}.

Definition already_resolved (actual : Status) : answer :=
  {| ok := false; answer_status := Some actual; failure := Some AlreadyResolved |}.

Definition approved_answer : answer :=
  {| ok := true; answer_status := Some approved; failure := None |}.

(** The answer after the transition failed behind a grant: the actual
    status of the request, never a made-up success. *)
Definition actual_answer (id : nat) (s : RequestStore.t) : answer :=
  match RequestStore.get id s with
  | inr r => already_resolved (status r)
  | inl _ => not_found
  end.

(** Modelled from the spec: what a caller is shown of a request,
    [{request_id, client_ip, status}]. *)
Record view := {
  view_id : nat;
  view_ip : option string;
  view_status : Status
}.

Definition view_of (r : PairingRequest) : view :=
  {| view_id := request_id r; view_ip := client_ip r; view_status := status r |}.

(** Modelled from the spec: [list_requests()] delegates to
    [RequestStore.list_pending()] and hands out
    [{request_id, client_ip, status}]. *)
Definition list_requests (now : Z) (svc : t) : list view * t :=
  let '(l, s') := RequestStore.list_pending now (store svc) in
  (view_of <$> l, {| store := s'; ledger := ledger svc |}).

Section Approve.
Context {identity : Identity}.

(** Modelled from the spec: [approve(request_id)] looks the request up,
    fails with NotFound if unknown and AlreadyResolved if not pending;
    otherwise it derives the identity, calls [TrustLedger.grant], then
    [RequestStore.transition(request_id, approved)]; when the transition
    fails behind the grant, the grant stands and the answer is the actual
    status of the request.  This is a call that runs alone; [Approvals]
    takes it apart into its steps, for calls that run together. *)
Definition approve (id : nat) (now : Z) (svc : t) : answer * t :=
  match RequestStore.get id (store svc) with
  | inl _ => (not_found, svc)
  | inr r =>
      if bool_decide (status r = pending) then
        let '(_, l') := TrustLedger.grant (identity_of r) now (ledger svc) in
        match RequestStore.transition id approved (store svc) with
        | inr s' => (approved_answer, {| store := s'; ledger := l' |})
        | inl _ =>
            (actual_answer id (store svc), {| store := store svc; ledger := l' |})
        end
      else (already_resolved (status r), svc)
  end.

End Approve.

(** Modelled from the spec: [dismiss(request_id) -> {ok}] transitions to
    [dismissed]; an already-resolved or unknown request is not an error
    and answers [ok=true] as well. *)
Definition dismiss (id : nat) (svc : t) : bool * t :=
  match RequestStore.transition id dismissed (store svc) with
  | inr s' => (true, {| store := s'; ledger := ledger svc |})
  | inl _ => (true, svc)
  end.

End PairingService.

Module Approvals.

Import PairingService.

Section Calls.
Context {identity : Identity}.

(** Modelled from the spec: concurrent calls of [approve] on one request
    id.  A call goes through the steps of section 4.3 in their order: the
    lookup, [TrustLedger.grant], [RequestStore.transition].  Each of the
    three is atomic (sections 4.1, 4.2 and 5: the transition is a
    check-and-set on the status, the grant an atomic write), and nothing
    else is: no lock is held from one step to the next, so between any two
    steps of a call the other calls may run.  [pc] is where a call
    stands. *)
Inductive pc :=
  | Waiting                      (* not started; next, the lookup *)
  | Found (r : PairingRequest)   (* the request was pending; next, [TrustLedger.grant] *)
  | Granted                      (* the ledger has answered; next, [RequestStore.transition] *)
  | Returned (a : answer).

(** The service, the calls, and the calls of [TrustLedger.grant] made so
    far, oldest first: which call made it, and the [newly_granted] it was
    answered. *)
Record system := {
  service : PairingService.t;
  calls : list pc;
  grant_log : list (nat * bool)
}.

(** [n] calls, none of them started. *)
Definition init (svc : PairingService.t) (n : nat) : system :=
  {| service := svc; calls := replicate n Waiting; grant_log := [] |}.

Definition set_call (i : nat) (c : pc) (σ : system) : system :=
  {| service := service σ; calls := <[i := c]> (calls σ); grant_log := grant_log σ |}.

(** Modelled from the spec: one step of call [i] of [approve(id)], taken
    at time [now], in the order of section 4.3.  The lookup answers
    NotFound or AlreadyResolved at once; a call that found the request
    pending calls the ledger, then tries the transition, and when that
    fails (another call was first) it answers with the actual status of the
    request.  A call that has returned does nothing more: no step calls the
    ledger again. *)
Definition step (id : nat) (σ : system) (turn : nat * Z) : system :=
  let '(i, now) := turn in
  match calls σ !! i with
  | None => σ
  | Some Waiting =>
      match RequestStore.get id (store (service σ)) with
      | inl _ => set_call i (Returned not_found) σ
      | inr r =>
          if bool_decide (status r = pending) then set_call i (Found r) σ
          else set_call i (Returned (already_resolved (status r))) σ
      end
  | Some (Found r) =>
      let '(newly, l') := TrustLedger.grant (identity_of r) now (ledger (service σ)) in
      {| service := {| store := store (service σ); ledger := l' |};
         calls := <[i := Granted]> (calls σ);
         grant_log := grant_log σ ++ [(i, newly)] |}
  | Some Granted =>
      match RequestStore.transition id approved (store (service σ)) with
      | inr s' =>
          {| service := {| store := s'; ledger := ledger (service σ) |};
             calls := <[i := Returned approved_answer]> (calls σ);
             grant_log := grant_log σ |}
      | inl _ => set_call i (Returned (actual_answer id (store (service σ)))) σ
      end
  | Some (Returned _) => σ
  end.

(** A schedule: which call moves next, and the clock it reads. *)
Definition run (id : nat) (schedule : list (nat * Z)) (σ : system) : system :=
  foldl (step id) σ schedule.

(** Every call has returned. *)
Definition returned (c : pc) : bool :=
  match c with
  | Returned _ => true
  | _ => false
  end.

Definition finished (σ : system) : bool := forallb returned (calls σ).

(** The calls that called the ledger, in the order of their calls, and the
    number of calls the ledger answered with [newly_granted=true]. *)
Definition grantors (σ : system) : list nat := (grant_log σ).*1.

Definition newly_granted (σ : system) : nat :=
  length (filter (λ entry, entry.2 = true) (grant_log σ)).

(** How many steps a call is away from its return, at most. *)
Definition rank (c : pc) : nat :=
  match c with
  | Waiting => 3
  | Found _ => 2
  | Granted => 1
  | Returned _ => 0
  end.

(** [k] steps in a row of call [i]. *)
Definition solo (i : nat) (now : Z) (k : nat) : list (nat * Z) := replicate k (i, now).

(** The calls [order] are run to their return, one after the other. *)
Definition in_turn (now : Z) (order : list nat) : list (nat * Z) :=
  concat ((λ i, solo i now 3) <$> order).

End Calls.

Section Invariant.
Context {identity : Identity}.
Variable svc0 : PairingService.t.
Variable id : nat.
Variable r0 : PairingRequest.

(** The store once the request [r0] is approved. *)
Definition approved_store : RequestStore.t :=
  RequestStore.with_requests
    (<[id := with_status approved r0]> (RequestStore.requests (store svc0)))
    (store svc0).

(** Where the calls stand together: the request is still pending and no
    call has returned; or the request is approved, by the call [winner],
    which had called the ledger, and every other call that has returned was
    told so. *)
Inductive phase (σ : system) : Prop :=
  | phase_open :
      store (service σ) = store svc0 →
      (∀ j c, calls σ !! j = Some c → c = Waiting ∨ c = Found r0 ∨ c = Granted) →
      phase σ
  | phase_approved (winner : nat) :
      store (service σ) = approved_store →
      calls σ !! winner = Some (Returned approved_answer) →
      winner ∈ grantors σ →
      (∀ j c, j ≠ winner → calls σ !! j = Some c →
         c = Waiting ∨ c = Found r0 ∨ c = Granted
         ∨ c = Returned (already_resolved approved)) →
      phase σ.

(** The ledger: untouched while no call has called it; after that, what
    the first call of [grant], at [t], made of it, every later call having
    been answered [newly_granted=false]. *)
Inductive ledger_state (σ : system) : Prop :=
  | ledger_untouched :
      grant_log σ = [] →
      ledger (service σ) = ledger svc0 →
      ledger_state σ
  | ledger_granted (first : nat) (t : Z) (rest : list (nat * bool)) :
      grant_log σ =
        (first, (TrustLedger.grant (identity_of r0) t (ledger svc0)).1) :: rest →
      Forall (λ entry, entry.2 = false) rest →
      ledger (service σ) = (TrustLedger.grant (identity_of r0) t (ledger svc0)).2 →
      ledger_state σ.

Record inv (σ : system) : Prop := {
  inv_log : ∀ j, j ∈ grantors σ →
    ∃ c, calls σ !! j = Some c ∧ (c = Granted ∨ ∃ a, c = Returned a);
  inv_granted : ∀ j, calls σ !! j = Some Granted → j ∈ grantors σ;
  inv_once : NoDup (grantors σ);
  inv_ledger : ledger_state σ;
  inv_phase : phase σ
}.

End Invariant.
End Approvals.

Module PollingGateway.

Import PairingService.

Section Wire.
Context {host : Host}.

(** Modelled from the spec: the body of [GET /daemon/pairing/requests],
    [{ requests: [ {request_id, client_ip, status}, ... ] }] (section 6).
    The identifier goes out as a token, the status by its name, and an
    absent [client_ip] is left out. *)
Definition token (id : nat) : string := "r" ++ pretty id.

Definition status_name (s : Status) : string :=
  match s with
  | pending => "pending"
  | approved => "approved"
  | dismissed => "dismissed"
  | expired => "expired"
  end.

Definition encode_fields (v : view) : gmap string jsval :=
  <["request_id" := JStr (token (view_id v))]>
    (<["status" := JStr (status_name (view_status v))]>
       (match view_ip v with
        | Some ip => {[ "client_ip" := JStr ip ]}
        | None => ∅
        end)).

Definition encode (v : view) : jsval := JObj (encode_fields v).

Definition requests_response (l : list view) : response :=
  {| http_status := 200;
     json_body := Some (JObj {[ "requests" := JArr (encode <$> l) ]}) |}.

End Wire.
End PollingGateway.

(** * Notions the statements below are written in *)

Section Worlds.
Context {host : Host}.

(** The world when the script starts on a page with the elements [p]. *)
Definition loaded (p : page) : world :=
  {| dom := p; console := []; network := []; timeouts := [];
     intervals := []; closed := false |}.

(** The world after [#daemon-content] was given the markup [html]. *)
Definition rendered (html : string) (w : world) : world :=
  set_dom {| content := Some html; status_row := mounted_row html |} w.

(** The world after [#daemon-status-row] was given the text [text]. *)
Definition row_text (text : string) (w : world) : world :=
  set_dom {| content := content (dom w); status_row := Some text |} w.

(** [m] leaves the part [f] of the world alone. *)
Definition keeps {A X} (f : world → X) (m : JS A) : Prop :=
  ∀ w, f (m w).2 = f w.

(** [m], run from [w], ends normally in a value and a world that satisfy
    [N], or throws an exception in a world that satisfy [T]. *)
Definition ends {A} (m : JS A) (w : world)
    (N : A → world → Prop) (T : exn → world → Prop) : Prop :=
  match m w with
  | (Normal a, w') => N a w'
  | (Throw e, w') => T e w'
  end.

(** A 200 whose body lists [l] under [requests]. *)
Definition listing (l : list jsval) : response :=
  {| http_status := 200; json_body := Some (JObj {[ "requests" := JArr l ]}) |}.

(** The answer the handler of [approve] gets, as an object with [ok] and
    [status]. *)
Definition approve_answer (ok : bool) (status : string) : jsval :=
  JObj (<["ok" := JBool ok]> {[ "status" := JStr status ]}).

Import PollingGateway.

(** What the card says of a listed request: the client (or "unknown"), the
    token, the status in capitals. *)
Definition client_text (v : PairingService.view) : string :=
  match PairingService.view_ip v with
  | Some ip => if String.eqb ip EmptyString then "unknown" else ip
  | None => "unknown"
  end.

Definition card_of (v : PairingService.view) : string :=
  card (client_text v) (token (PairingService.view_id v))
       (toUpperCase (status_name (PairingService.view_status v)))
       (token (PairingService.view_id v)) (token (PairingService.view_id v)).

End Worlds.

(** The request that was created last, and the one that was created
    first, among the requests [l]. *)
Definition most_recent (l : list PairingRequest) (r : PairingRequest) : Prop :=
  r ∈ l ∧ ∀ r', r' ∈ l → created_at r' ≤ created_at r.

Definition oldest (l : list PairingRequest) (r : PairingRequest) : Prop :=
  r ∈ l ∧ ∀ r', r' ∈ l → created_at r ≤ created_at r'.

(** The moves of a request's status: it stays, or it leaves [pending] for
    one of the three terminal states. *)
Inductive moves : Status → Status → Prop :=
  | moves_stay s : moves s s
  | moves_approve : moves pending approved
  | moves_dismiss : moves pending dismissed
  | moves_expire : moves pending expired.

(** Every request of the store has an identifier the store has drawn. *)
Definition drawn (s : RequestStore.t) : Prop :=
  ∀ id r, RequestStore.requests s !! id = Some r → (id < RequestStore.next_id s)%nat.

(** The ledger holds at most one record per identity. *)
Definition one_record_each (l : TrustLedger.t) : Prop := NoDup (client_id <$> l).

(** * Inputs the statements are run on *)

(** The page as it is served, and the page once a card is on it. *)
Definition served_page : page :=
  {| content := Some EmptyString; status_row := None |}.

Definition card_page : page :=
  {| content := Some (card "10.0.0.5" "r0" "PENDING" "r0" "r0");
     status_row := Some EmptyString |}.

(** Two requests, admitted at 10 and at 20 into an empty store. *)
Definition first_request : PairingRequest :=
  {| request_id := 0; client_ip := Some "10.0.0.5";
     status := pending; created_at := 10 |}.

Definition second_request : PairingRequest :=
  {| request_id := 1; client_ip := Some "10.0.0.9";
     status := pending; created_at := 20 |}.

Definition two_admissions : list RequestStore.op :=
  [RequestStore.Admit (Some "10.0.0.5") 10; RequestStore.Admit (Some "10.0.0.9") 20].

Definition two_requests : RequestStore.t :=
  RequestStore.run two_admissions (RequestStore.empty 8 3600).

Definition example_service : PairingService.t :=
  {| PairingService.store := two_requests; PairingService.ledger := [] |}.

(** The identity of the reference client: the address it came from. *)
Definition by_address : Identity := λ r, default "unknown" (client_ip r).

(** Four calls of [approve] on request 0.  Calls 0, 1 and 2 all find the
    request pending; call 1 is the first at the ledger, call 2 the first at
    the transition; call 3 starts when all is over. *)
Definition four_calls : list (nat * Z) :=
  [(0%nat, 31); (1%nat, 31); (2%nat, 32);
   (1%nat, 33); (0%nat, 34); (2%nat, 35);
   (2%nat, 36); (0%nat, 37); (1%nat, 38);
   (3%nat, 39)].

(** A ledger that trusts one client. *)
Definition one_client : TrustLedger.t :=
  [{| client_id := "10.0.0.5"; granted_at := 5 |}].

(** * The script: what it does with a response *)

Create HintDb js discriminated.

Ltac keeps_prim :=
  let w := fresh "w" in
  intros w; cbv beta delta
    [get get_first subst call_toUpperCase res_json getElementById
     set_innerHTML set_textContent console_error setTimeout window_close
     throw mret JS_ret];
  repeat case_match; reflexivity.

Section Frame.
Context {host : Host}.

Lemma keeps_ret {A X} (f : world → X) (a : A) : keeps f (mret a).
Proof. by intros w. Qed.

Lemma keeps_bind {A B X} (f : world → X) (m : JS A) (k : A → JS B) :
  keeps f m → (∀ a, keeps f (k a)) → keeps f (m ≫= k).
Proof.
  intros Hm Hk w. unfold mbind, JS_bind.
  specialize (Hm w). destruct (m w) as [[a|e] w']; simpl in *.
  - by rewrite Hk.
  - done.
Qed.

Lemma keeps_try_catch {A X} (f : world → X) (m : JS A) (h : exn → JS A) :
  keeps f m → (∀ e, keeps f (h e)) → keeps f (try_catch m h).
Proof.
  intros Hm Hh w. unfold try_catch.
  specialize (Hm w). destruct (m w) as [[a|e] w']; simpl in *.
  - done.
  - by rewrite Hh.
Qed.

Lemma keeps_if {A X} (f : world → X) (b : bool) (m1 m2 : JS A) :
  keeps f m1 → keeps f m2 → keeps f (if b then m1 else m2).
Proof. by destruct b. Qed.

Lemma keeps_get {X} (f : world → X) v k : keeps f (get v k).
Proof. keeps_prim. Qed.

Lemma keeps_get_first {X} (f : world → X) v : keeps f (get_first v).
Proof. keeps_prim. Qed.

Lemma keeps_subst {X} (f : world → X) v : keeps f (subst v).
Proof. keeps_prim. Qed.

Lemma keeps_call_toUpperCase {X} (f : world → X) v : keeps f (call_toUpperCase v).
Proof. keeps_prim. Qed.

Lemma keeps_res_json {X} (f : world → X) res : keeps f (res_json res).
Proof. keeps_prim. Qed.

Lemma keeps_getElementById {X} (f : world → X) id : keeps f (getElementById id).
Proof. keeps_prim. Qed.

(** What the statements after the [fetch] of [fetchRequests] leave alone:
    the requests sent and the timers. *)
Lemma network_set_innerHTML el html : keeps network (set_innerHTML el html).
Proof. keeps_prim. Qed.

Lemma intervals_set_innerHTML el html : keeps intervals (set_innerHTML el html).
Proof. keeps_prim. Qed.

Lemma network_console_error msg e : keeps network (console_error msg e).
Proof. keeps_prim. Qed.

Lemma intervals_console_error msg e : keeps intervals (console_error msg e).
Proof. keeps_prim. Qed.

End Frame.

#[export] Hint Resolve keeps_ret keeps_get keeps_get_first keeps_subst
  keeps_call_toUpperCase keeps_res_json keeps_getElementById
  network_set_innerHTML intervals_set_innerHTML
  network_console_error intervals_console_error : js.

Ltac keeps_steps :=
  repeat first
    [ apply keeps_try_catch | apply keeps_bind | apply keeps_if
    | progress intros | solve [auto with js] ].

Section Handlers.
Context {host : Host}.

(** A [try] whose handler only logs always completes. *)
Lemma try_catch_console_returns (m : JS unit) msg w :
  (try_catch m (λ err, console_error msg err) w).1 = Normal tt.
Proof. unfold try_catch. by destruct (m w) as [[[]|e] w']. Qed.

Lemma fetchRequests_returns net w : (fetchRequests net w).1 = Normal tt.
Proof. apply try_catch_console_returns. Qed.

Lemma approve_returns id net w : (approve id net w).1 = Normal tt.
Proof. apply try_catch_console_returns. Qed.

Lemma dismiss_returns id net net' w : (dismiss id net net' w).1 = Normal tt.
Proof. apply try_catch_console_returns. Qed.

(** A [try] around a statement that completes is that statement. *)
Lemma try_catch_normal {A} (m : JS A) h w a :
  (m w).1 = Normal a → try_catch m h w = m w.
Proof. unfold try_catch. by destruct (m w) as [[?|?] ?]. Qed.

(** [fetchRequests] sends its one request and nothing else, and touches no
    timer, however its [fetch] settles. *)
Lemma fetchRequests_network net w :
  network (fetchRequests net w).2 = network w ++ [GET "/daemon/pairing/requests"].
Proof.
  unfold fetchRequests, try_catch, mbind, JS_bind at 1.
  destruct net as [|res]; simpl.
  - done.
  - match goal with |- context [match ?m ?w0 with _ => _ end] =>
      assert (Hk : keeps network m) by keeps_steps;
      specialize (Hk w0); destruct (m w0) as [[[]|e] w']
    end; simpl in *; by rewrite Hk.
Qed.

Lemma fetchRequests_intervals net : keeps intervals (fetchRequests net).
Proof.
  unfold fetchRequests. apply keeps_try_catch; [apply keeps_bind|]; keeps_steps.
  intros w. by destruct net.
Qed.

End Handlers.

Section Polling.
Context {host : Host}.

Lemma truthy_length (n : nat) :
  truthy (JNum (num_of_nat n)) = negb (Nat.eqb n 0).
Proof. apply num_truthy_of_nat. Qed.

(** A 2xx response in which [data.requests || []] comes out as the empty
    array shows the empty state. *)
Lemma fetchRequests_empty res data c w :
  res_ok res = true →
  json_body res = Some data →
  content (dom w) = Some c →
  get data "requests" = mret JUndefined ∨ get data "requests" = mret JNull
    ∨ get data "requests" = mret (JArr []) →
  fetchRequests (Resolved res) w =
    (Normal tt, rendered empty_state (sent (GET "/daemon/pairing/requests") w)).
Proof.
  intros Hok Hbody Hel Hreqs.
  unfold fetchRequests, try_catch, mbind, JS_bind, fetch.
  rewrite Hok. cbn [negb]. unfold res_json. rewrite Hbody.
  unfold getElementById. cbn [mret JS_ret String.eqb Ascii.eqb Bool.eqb sent dom].
  rewrite Hel.
  assert (get data "requests" (sent (GET "/daemon/pairing/requests") w) =
            (Normal JUndefined, sent (GET "/daemon/pairing/requests") w)
          ∨ get data "requests" (sent (GET "/daemon/pairing/requests") w) =
            (Normal JNull, sent (GET "/daemon/pairing/requests") w)
          ∨ get data "requests" (sent (GET "/daemon/pairing/requests") w) =
            (Normal (JArr []), sent (GET "/daemon/pairing/requests") w))
    as [-> | [-> | ->]] by (destruct Hreqs as [-> | [-> | ->]]; auto);
    cbn [js_or truthy]; unfold get;
    cbn [mret JS_ret String.eqb Ascii.eqb Bool.eqb length];
    by rewrite truthy_length.
Qed.

(** A body that is neither [null] nor [undefined] and has no [requests] of
    its own, or has it [null] or [undefined], answers the read of line 7
    with [undefined] or [null]. *)
Lemma get_requests_missing data :
  data ≠ JNull → data ≠ JUndefined →
  (∀ o, data = JObj o →
     o !! "requests" = None ∨ o !! "requests" = Some JNull
     ∨ o !! "requests" = Some JUndefined) →
  get data "requests" = mret JUndefined ∨ get data "requests" = mret JNull.
Proof.
  intros Hnull Hundef Hobj.
  destruct data as [| |b|n|t|l|o]; try done; simpl; auto.
  destruct (Hobj o eq_refl) as [-> | [-> | ->]]; auto.
Qed.

(** C9 (amended).  A 2xx response whose body is not [null] and has no
    [requests] (an object without the key, or with [requests] set to [null]
    or [undefined]; also an array, a string, a number, a boolean) is handled
    exactly as the body [{requests: []}] is, on every page.  On a page that
    has [#daemon-content] the handler completes, logs nothing, sends its one
    GET and touches no timer, and the element is given the paragraph
    "No pending pairing requests." *)
Theorem missing_requests_shows_empty_state
    (res : response) (data : jsval) (w : world) :
  res_ok res = true →
  json_body res = Some data →
  data ≠ JNull →
  data ≠ JUndefined →
  (∀ o, data = JObj o →
     o !! "requests" = None ∨ o !! "requests" = Some JNull
     ∨ o !! "requests" = Some JUndefined) →
  fetchRequests (Resolved res) w =
    fetchRequests
      (Resolved {| http_status := http_status res;
                   json_body := Some (JObj {[ "requests" := JArr [] ]}) |}) w
  ∧ ∀ c, content (dom w) = Some c →
      (fetchRequests (Resolved res) w).1 = Normal tt
      ∧ content (dom (fetchRequests (Resolved res) w).2) =
          Some ("<p class=" ++ String "034" "daemon-empty"
                  ++ String "034" ">No pending pairing requests.</p>")%string
      ∧ console (fetchRequests (Resolved res) w).2 = console w
      ∧ network (fetchRequests (Resolved res) w).2 =
          network w ++ [{| method := "GET"; url := "/daemon/pairing/requests";
                           headers := []; body := None |}]
      ∧ timeouts (fetchRequests (Resolved res) w).2 = timeouts w
      ∧ intervals (fetchRequests (Resolved res) w).2 = intervals w
      ∧ closed (fetchRequests (Resolved res) w).2 = closed w
      ∧ fetchRequests (Resolved res) w =
          (Normal tt, rendered empty_state (sent (GET "/daemon/pairing/requests") w)).
Proof.
  intros Hok Hbody Hnull Hundef Hobj.
  pose proof (get_requests_missing data Hnull Hundef Hobj) as Hreqs.
  split.
  - unfold fetchRequests, try_catch, mbind, JS_bind, fetch.
    rewrite Hok. change (res_ok _) with (res_ok res). rewrite Hok.
    cbn [negb]. unfold res_json. rewrite Hbody. cbn [json_body mret JS_ret].
    destruct (getElementById "daemon-content" _) as [[el|e] w'] eqn:Hel; [|done].
    assert (get (JObj {[ "requests" := JArr [] ]}) "requests" w' = (Normal (JArr []), w'))
      as -> by (unfold get; by rewrite lookup_singleton_eq).
    destruct Hreqs as [-> | ->]; reflexivity.
  - intros c Hel.
    assert (fetchRequests (Resolved res) w =
      (Normal tt, rendered empty_state (sent (GET "/daemon/pairing/requests") w))) as ->.
    { apply (fetchRequests_empty res data c); try done. tauto. }
    done.
Qed.

(** Each time the timer of [fetchRequests] goes off, one more request is
    sent and the timer stays. *)
Lemma poll_sends nets w k :
  intervals w = [(cb_fetchRequests, 4000)] →
  network w = replicate k (GET "/daemon/pairing/requests") →
  intervals (poll nets w) = [(cb_fetchRequests, 4000)]
  ∧ network (poll nets w) =
      replicate (length nets + k) (GET "/daemon/pairing/requests").
Proof.
  revert w k. induction nets as [|net nets IH]; intros w k Hi Hn; [done|].
  simpl.
  assert (intervals (fire_intervals net w) = [(cb_fetchRequests, 4000)]
          ∧ network (fire_intervals net w) =
              replicate (S k) (GET "/daemon/pairing/requests")) as [Hi' Hn'].
  { unfold fire_intervals. rewrite Hi. simpl.
    rewrite fetchRequests_intervals, fetchRequests_network, Hi, Hn.
    split; [done|]. by rewrite <- replicate_S_end. }
  destruct (IH _ (S k) Hi' Hn') as [-> ->].
  by rewrite Nat.add_succ_r.
Qed.

(** C7 (amended).  A response with a status outside 200-299 and a 2xx
    response whose body is no JSON are both ignored: the handler completes
    without an exception, and the page and the timers are left as they were.
    They are not treated identically: the first is dropped without a word,
    the second is reported with [console.error], and that line is the whole
    difference between the two outcomes.  And the poller comes back whatever
    it met: loading the script registers [fetchRequests] with the interval
    4000 once, nothing ever removes or changes that timer, and each time it
    goes off one more [GET /daemon/pairing/requests] is sent, whatever the
    earlier outcomes. *)
Theorem poller_ignores_failures_and_retries
    (bad unparsable : response) (w : world) :
  res_ok bad = false →
  res_ok unparsable = true →
  json_body unparsable = None →
  ((fetchRequests (Resolved bad) w).1 = Normal tt
   ∧ (fetchRequests (Resolved unparsable) w).1 = Normal tt
   ∧ dom (fetchRequests (Resolved bad) w).2 = dom w
   ∧ dom (fetchRequests (Resolved unparsable) w).2 = dom w
   ∧ console (fetchRequests (Resolved bad) w).2 = console w
   ∧ console (fetchRequests (Resolved unparsable) w).2 =
       console w ++ [("Failed to fetch pairing requests", SyntaxError)]
   ∧ network (fetchRequests (Resolved bad) w).2 =
       network w ++ [{| method := "GET"; url := "/daemon/pairing/requests";
                        headers := []; body := None |}]
   ∧ network (fetchRequests (Resolved unparsable) w).2 =
       network (fetchRequests (Resolved bad) w).2
   ∧ timeouts (fetchRequests (Resolved bad) w).2 = timeouts w
   ∧ timeouts (fetchRequests (Resolved unparsable) w).2 = timeouts w
   ∧ intervals (fetchRequests (Resolved bad) w).2 = intervals w
   ∧ intervals (fetchRequests (Resolved unparsable) w).2 = intervals w
   ∧ closed (fetchRequests (Resolved bad) w).2 = closed w
   ∧ closed (fetchRequests (Resolved unparsable) w).2 = closed w
   ∧ fetchRequests (Resolved bad) w =
       (Normal tt, sent (GET "/daemon/pairing/requests") w)
   ∧ fetchRequests (Resolved unparsable) w =
       (Normal tt,
        logged "Failed to fetch pairing requests" SyntaxError
          (sent (GET "/daemon/pairing/requests") w)))
  ∧ ∀ (p : page) (first : fetch_outcome) (nets : list fetch_outcome),
      intervals (poll nets (main first (loaded p)).2) = [(cb_fetchRequests, 4000)]
      ∧ network (poll nets (main first (loaded p)).2) =
          replicate (S (length nets))
            {| method := "GET"; url := "/daemon/pairing/requests";
               headers := []; body := None |}.
Proof.
  intros Hbad Hok Hbody. split.
  - assert (fetchRequests (Resolved bad) w =
      (Normal tt, sent (GET "/daemon/pairing/requests") w)) as ->.
    { unfold fetchRequests, try_catch, mbind, JS_bind, fetch. by rewrite Hbad. }
    assert (fetchRequests (Resolved unparsable) w =
      (Normal tt, logged "Failed to fetch pairing requests" SyntaxError
         (sent (GET "/daemon/pairing/requests") w))) as ->.
    { unfold fetchRequests, try_catch, mbind, JS_bind, fetch, res_json.
      by rewrite Hok, Hbody. }
    done.
  - intros p first nets.
    assert (intervals (main first (loaded p)).2 = [(cb_fetchRequests, 4000)]
            ∧ network (main first (loaded p)).2 = [GET "/daemon/pairing/requests"])
      as [Hi Hn].
    { unfold main, mbind, JS_bind.
      pose proof (fetchRequests_returns first (loaded p)) as Hr.
      pose proof (fetchRequests_intervals first (loaded p)) as Hi.
      pose proof (fetchRequests_network first (loaded p)) as Hn.
      destruct (fetchRequests first (loaded p)) as [[[]|e] w1]; [|done].
      simpl in *. by rewrite Hi, Hn. }
    destruct (poll_sends nets _ 1 Hi Hn) as [Hi' Hn'].
    by rewrite Hi', Hn', Nat.add_1_r.
Qed.

(** C10.  [dismiss] never looks at the response: whatever the daemon
    answers (any status, any body, parsable or not), the handler sends its
    POST and goes on to [fetchRequests()], so two answers lead to the same
    world, in which the POST and then the GET of the list have gone out.
    When the [fetch] is rejected the error is caught and only logged: one
    line "Failed to dismiss pairing request" is written to the console, the
    POST is the only request sent (nothing is fetched again), the page and
    the timers are as they were, and no exception leaves the handler. *)
Theorem dismiss_ignores_the_response
    (id : string) (res1 res2 : response) (net' : fetch_outcome) (w : world) :
  dismiss id (Resolved res1) net' w = dismiss id (Resolved res2) net' w
  ∧ dismiss id (Resolved res1) net' w =
      fetchRequests net' (sent (POST "/daemon/pairing/dismiss" id) w)
  ∧ network (dismiss id (Resolved res1) net' w).2 =
      network w ++ [POST "/daemon/pairing/dismiss" id;
                    GET "/daemon/pairing/requests"]
  ∧ network (dismiss id (Resolved res1) net' w).2 =
      network w
      ++ [{| method := "POST"; url := "/daemon/pairing/dismiss";
             headers := [("Content-Type", "application/json")];
             body := Some (JObj {[ "request_id" := JStr id ]}) |};
          {| method := "GET"; url := "/daemon/pairing/requests";
             headers := []; body := None |}]
  ∧ dismiss id Rejected net' w =
      (Normal tt,
       logged "Failed to dismiss pairing request" NetworkError
         (sent (POST "/daemon/pairing/dismiss" id) w))
  ∧ console (dismiss id Rejected net' w).2 =
      console w ++ [("Failed to dismiss pairing request", NetworkError)]
  ∧ network (dismiss id Rejected net' w).2 =
      network w
      ++ [{| method := "POST"; url := "/daemon/pairing/dismiss";
             headers := [("Content-Type", "application/json")];
             body := Some (JObj {[ "request_id" := JStr id ]}) |}]
  ∧ dom (dismiss id Rejected net' w).2 = dom w
  ∧ timeouts (dismiss id Rejected net' w).2 = timeouts w
  ∧ intervals (dismiss id Rejected net' w).2 = intervals w
  ∧ closed (dismiss id Rejected net' w).2 = closed w
  ∧ ∀ net, (dismiss id net net' w).1 = Normal tt.
Proof.
  assert (∀ res, dismiss id (Resolved res) net' w =
      fetchRequests net' (sent (POST "/daemon/pairing/dismiss" id) w)) as Hrun.
  { intros res. unfold dismiss.
    rewrite (try_catch_normal _ _ _ tt).
    - done.
    - unfold mbind, JS_bind, fetch. apply fetchRequests_returns. }
  rewrite !Hrun. split_and!; try done.
  - rewrite fetchRequests_network. simpl. by rewrite <- app_assoc.
  - rewrite fetchRequests_network. simpl. by rewrite <- app_assoc.
  - intros net. apply dismiss_returns.
Qed.

(** C8 (amended).  [approve] compares the status with [===]: on a page that
    shows the status row, an answer with [ok: true] and a string [status]
    is taken for a success exactly when that string is "approved" in lower
    case; then the row shows the trusted message and the window is set to
    close after 1500 ms.  For every other string, another letter case of
    "approved" included, the row shows "Failed to approve flake." *)
Theorem approve_compares_status_exactly
    (id : string) (code : Z) (status : string) (t : string) (w : world) :
  status_row (dom w) = Some t →
  approve id
    (Resolved {| http_status := code;
                 json_body := Some (approve_answer true status) |}) w =
  (Normal tt,
   if decide (status = "approved")
   then after_timeout cb_window_close 1500
          (row_text trusted_message (sent (POST "/daemon/pairing/approve" id) w))
   else row_text failed_message (sent (POST "/daemon/pairing/approve" id) w)).
Proof.
  intros Hrow.
  unfold approve, try_catch, mbind, JS_bind, fetch, res_json, approve_answer.
  cbn [json_body mret JS_ret getElementById String.eqb Ascii.eqb Bool.eqb
       sent dom get].
  rewrite Hrow, lookup_insert_eq.
  rewrite lookup_insert_ne by done. rewrite lookup_singleton_eq.
  cbn [from_option Datatypes.id truthy strict_eq_str mret JS_ret].
  destruct (String.eqb_spec status "approved") as [->|Hne].
  - by rewrite decide_True.
  - by rewrite decide_False.
Qed.

End Polling.

(** * The store *)

Section StoreFacts.
Import RequestStore.

Lemma expire_cases window now r :
  expire window now r =
    if bool_decide (status r = pending ∧ created_at r + window < now)
    then with_status expired r else r.
Proof.
  unfold expire, is_pending, crossed.
  destruct (bool_decide_reflect (status r = pending)),
           (bool_decide_reflect (created_at r + window < now)); simpl;
    [rewrite bool_decide_eq_true_2 by done
    |rewrite bool_decide_eq_false_2 by tauto ..]; done.
Qed.

(** What stays pending under the lazy expiry was pending, has not crossed
    the threshold and is untouched. *)
Lemma expire_pending window now r :
  status (expire window now r) = pending →
  expire window now r = r ∧ status r = pending ∧ crossed window now r = false.
Proof.
  unfold expire, is_pending.
  destruct (bool_decide_reflect (status r = pending)) as [Hp|Hp]; simpl.
  - destruct (crossed window now r); simpl; [done|]. by intros _.
  - by intros.
Qed.

(** The requests of the store after the read, as a list. *)
Lemma elem_of_list_pending now s r :
  r ∈ (list_pending now s).1 ↔
  status r = pending ∧ ∃ id, requests (list_pending now s).2 !! id = Some r.
Proof.
  unfold list_pending. cbn [fst snd].
  rewrite merge_sort_Permutation, list_elem_of_filter.
  unfold is_pending. rewrite bool_decide_eq_true.
  apply and_iff_compat_l. rewrite list_elem_of_fmap. split.
  - intros [[id r'] [-> Hin]]. exists id. by apply elem_of_map_to_list in Hin.
  - intros [id Hid]. exists (id, r). split; [done|]. by apply elem_of_map_to_list.
Qed.

Lemma lookup_list_pending now s id :
  requests (list_pending now s).2 !! id =
    expire (expiry_window s) now <$> requests s !! id.
Proof. unfold list_pending. cbn [snd with_requests requests]. apply lookup_fmap. Qed.

Lemma list_pending_sorted now s : StronglySorted older (list_pending now s).1.
Proof. apply StronglySorted_merge_sort; apply _. Qed.

(** C5.  [list_pending] (and [list_requests], which hands out the same
    requests) returns pending requests only, none of which has crossed the
    expiry threshold, every one of them a request of the store, and all the
    pending requests of the store; the list is ordered by [created_at],
    oldest first.  Its only effect on the store is the lazy expiry: a
    request that was pending and past the threshold is now [expired], every
    other request, the next identifier and the settings are as before. *)
Theorem list_pending_contract (now : Z) (s : RequestStore.t) (l : TrustLedger.t) :
  (∀ r, r ∈ (list_pending now s).1 →
     status r = pending
     ∧ crossed (expiry_window s) now r = false
     ∧ ∃ id, requests s !! id = Some r)
  ∧ (∀ id r, requests s !! id = Some r → status r = pending →
       crossed (expiry_window s) now r = false → r ∈ (list_pending now s).1)
  ∧ StronglySorted older (list_pending now s).1
  ∧ (∀ id,
       requests (list_pending now s).2 !! id =
         (λ r, if bool_decide (status r = pending
                               ∧ created_at r + expiry_window s < now)
               then with_status expired r else r) <$> requests s !! id)
  ∧ next_id (list_pending now s).2 = next_id s
  ∧ capacity (list_pending now s).2 = capacity s
  ∧ expiry_window (list_pending now s).2 = expiry_window s
  ∧ PairingService.list_requests now
      {| PairingService.store := s; PairingService.ledger := l |} =
    (PairingService.view_of <$> (list_pending now s).1,
     {| PairingService.store := (list_pending now s).2;
        PairingService.ledger := l |})
  ∧ ∀ v, v ∈ (PairingService.list_requests now
                {| PairingService.store := s; PairingService.ledger := l |}).1 →
      PairingService.view_status v = pending.
Proof.
  split_and!.
  - intros r [Hp [id Hid]]%elem_of_list_pending.
    rewrite lookup_list_pending in Hid.
    destruct (requests s !! id) as [r0|] eqn:Hr0; [|done].
    simpl in Hid. injection Hid as <-.
    destruct (expire_pending _ _ _ Hp) as (He & Hp0 & Hc).
    rewrite He. eauto.
  - intros id r Hid Hp Hc. apply elem_of_list_pending. split; [done|].
    exists id. rewrite lookup_list_pending, Hid. simpl. f_equal.
    unfold expire. by rewrite Hc, andb_false_r.
  - apply list_pending_sorted.
  - intros id. rewrite lookup_list_pending.
    destruct (requests s !! id) as [r|]; [|done]. simpl.
    by rewrite expire_cases.
  - done.
  - done.
  - done.
  - done.
  - intros v. simpl. rewrite list_elem_of_fmap.
    intros [r [-> [Hp _]%elem_of_list_pending]]. done.
Qed.

End StoreFacts.

(** * The state machine of a request *)

Section Machine.
Import RequestStore.

Lemma with_status_same r : with_status (status r) r = r.
Proof. by destruct r. Qed.

Lemma moves_terminal a b : moves a b → a ≠ pending → b = a.
Proof. by destruct 1. Qed.

Lemma moves_trans a b c : moves a b → moves b c → moves a c.
Proof. destruct 1; inversion 1; constructor. Qed.

Lemma expire_moves window now r :
  moves (status r) (status (expire window now r)).
Proof.
  unfold expire, is_pending.
  destruct (bool_decide_reflect (status r = pending)) as [Hp|Hp]; simpl;
    [destruct (crossed window now r); simpl; [rewrite Hp|] |]; constructor.
Qed.

Lemma expire_fields window now r :
  expire window now r = with_status (status (expire window now r)) r.
Proof. unfold expire. destruct r; by case (_ && _). Qed.

(** One operation on a store whose identifiers were all drawn: the request
    [id] is still there, only its status may differ, and it has made one
    move of the machine. *)
Lemma apply_moves s o id r :
  drawn s →
  requests s !! id = Some r →
  ∃ st, requests (apply s o) !! id = Some (with_status st r) ∧ moves (status r) st.
Proof.
  intros Hd Hid.
  assert (∀ m : gmap nat PairingRequest, m !! id = Some r →
    ∃ st, m !! id = Some (with_status st r) ∧ moves (status r) st) as Hstay.
  { intros m Hm. exists (status r). rewrite with_status_same.
    split; [done|constructor]. }
  destruct o as [ip now|now|id'|id' new]; simpl.
  - unfold admit_request. case_bool_decide; simpl; [by apply Hstay|].
    apply Hstay. rewrite lookup_insert_ne; [done|]. apply Hd in Hid. lia.
  - exists (status (expire (expiry_window s) now r)).
    rewrite lookup_fmap, Hid. simpl. rewrite <- expire_fields.
    split; [done|apply expire_moves].
  - by apply Hstay.
  - unfold transition.
    destruct (requests s !! id') as [r'|] eqn:Hid'; simpl; [|by apply Hstay].
    destruct (decide (id' = id)) as [->|Hne].
    + assert (r' = r) as -> by congruence.
      destruct (status r) eqn:Hst, new; simpl; try (by apply Hstay).
      * exists approved. rewrite lookup_insert_eq. split; [done|constructor].
      * exists dismissed. rewrite lookup_insert_eq. split; [done|constructor].
    + destruct (status r'), new; simpl; try (by apply Hstay);
        apply Hstay; by rewrite lookup_insert_ne.
Qed.

Lemma apply_drawn s o : drawn s → drawn (apply s o).
Proof.
  intros Hd. destruct o as [ip now|now|id'|id' new]; simpl; try done.
  - unfold admit_request. case_bool_decide; simpl; [done|].
    intros id r. simpl. destruct (decide (next_id s = id)) as [<-|Hne].
    + intros _. lia.
    + rewrite lookup_insert_ne by done. intros ?%Hd. lia.
  - intros id r. simpl. rewrite lookup_fmap.
    destruct (requests s !! id) as [r0|] eqn:Hid; [|done].
    intros _. by apply (Hd id r0).
  - unfold transition.
    destruct (requests s !! id') as [r'|] eqn:Hid'; simpl; [|done].
    destruct (status r'), new; simpl; try done;
      intros id r; simpl;
      (destruct (decide (id' = id)) as [->|Hne];
        [intros _; by apply (Hd id r')
        |rewrite lookup_insert_ne by done; apply Hd]).
Qed.

Lemma run_drawn ops s : drawn s → drawn (run ops s).
Proof.
  revert s. induction ops as [|o ops IH]; intros s Hd; [done|].
  simpl. apply IH, apply_drawn, Hd.
Qed.

Lemma run_moves ops s id r :
  drawn s →
  requests s !! id = Some r →
  ∃ st, requests (run ops s) !! id = Some (with_status st r) ∧ moves (status r) st.
Proof.
  revert s r. induction ops as [|o ops IH]; intros s r Hd Hid.
  - exists (status r). split; [by destruct r|constructor].
  - destruct (apply_moves s o id r Hd Hid) as (st1 & Hid1 & Hm1).
    destruct (IH _ _ (apply_drawn s o Hd) Hid1) as (st2 & Hid2 & Hm2).
    exists st2. simpl in *. split; [by destruct r|].
    by apply (moves_trans _ st1).
Qed.

Lemma run_app ops1 ops2 s : run (ops1 ++ ops2) s = run ops2 (run ops1 s).
Proof. apply foldl_app. Qed.

Lemma empty_drawn cap window : drawn (empty cap window).
Proof. intros id r. simpl. by rewrite lookup_empty. Qed.

(** C2.  In a store that started empty, after any operations [ops]: the
    next operation leaves every request in place and changes its status not
    at all or from [pending] to [approved], [dismissed] or [expired]; a
    request that is no longer pending keeps its status through any further
    operations [ops'], so it never returns to [pending]; and a request that
    a [list_pending] has left [expired] is never [approved] or [dismissed]
    afterwards. *)
Theorem status_leaves_pending_once
    (cap : nat) (window : Z) (ops : list op) (id : nat) (r : PairingRequest) :
  requests (run ops (empty cap window)) !! id = Some r →
  (∀ o, ∃ r',
     requests (run (ops ++ [o]) (empty cap window)) !! id = Some r'
     ∧ (status r' = status r
        ∨ status r = pending
          ∧ (status r' = approved ∨ status r' = dismissed ∨ status r' = expired)))
  ∧ (status r ≠ pending →
     ∀ ops', ∃ r',
       requests (run (ops ++ ops') (empty cap window)) !! id = Some r'
       ∧ status r' = status r)
  ∧ (∀ now r1,
       requests (run (ops ++ [ListPending now]) (empty cap window)) !! id = Some r1 →
       status r1 = expired →
       ∀ ops' r2,
         requests (run (ops ++ [ListPending now] ++ ops') (empty cap window)) !! id
           = Some r2 →
         status r2 = expired).
Proof.
  intros Hid.
  pose proof (run_drawn ops _ (empty_drawn cap window)) as Hd.
  split_and!.
  - intros o. rewrite run_app.
    destruct (run_moves [o] _ id r Hd Hid) as (st & Hst & Hm).
    exists (with_status st r). split; [done|].
    simpl. destruct Hm; auto.
  - intros Hnp ops'. rewrite run_app.
    destruct (run_moves ops' _ id r Hd Hid) as (st & Hst & Hm).
    exists (with_status st r). split; [done|].
    simpl. by apply moves_terminal.
  - intros now r1 Hid1 Hexp ops' r2.
    rewrite app_assoc, run_app.
    pose proof (run_drawn (ops ++ [ListPending now]) _ (empty_drawn cap window)) as Hd1.
    destruct (run_moves ops' _ id r1 Hd1 Hid1) as (st & Hst & Hm).
    rewrite Hst. intros [= <-]. simpl.
    rewrite Hexp in Hm. by inversion Hm.
Qed.

End Machine.

(** * Dismissing and granting *)

Section Idempotence.
Import RequestStore PairingService.

Lemma transition_twice id new s s' :
  transition id new s = inr s' → transition id new s' = inl InvalidTransition.
Proof.
  unfold transition.
  destruct (requests s !! id) as [r|] eqn:Hid; [|done].
  destruct (status r) eqn:Hst, new; try done;
    intros [= <-]; simpl; by rewrite lookup_insert_eq.
Qed.

(** C3.  [dismiss] answers [ok=true] on every call, whatever the request.
    A pending request ends with the status [dismissed], its other fields as
    they were, and nothing else changes; a resolved or unknown one leaves
    the service as it was.  A second call, and any number of further calls,
    answer [ok=true] again and change nothing: the request is still
    [dismissed], and the one change there was is the only one. *)
Theorem dismiss_is_idempotent (id : nat) (svc : PairingService.t) :
  (dismiss id svc).1 = true
  ∧ dismiss id (dismiss id svc).2 = (true, (dismiss id svc).2)
  ∧ (∀ n, Nat.iter n (λ s, (dismiss id s).2) (dismiss id svc).2 = (dismiss id svc).2)
  ∧ (∀ r, requests (store svc) !! id = Some r → status r = pending →
       requests (store (dismiss id svc).2) !! id = Some (with_status dismissed r)
       ∧ ∃ r',
           requests (store (dismiss id svc).2) !! id = Some r'
           ∧ status r' = dismissed
           ∧ request_id r' = request_id r
           ∧ client_ip r' = client_ip r
           ∧ created_at r' = created_at r
           ∧ ∀ n,
               requests
                 (store (Nat.iter n (λ s, (dismiss id s).2) (dismiss id svc).2)) !! id
               = Some r')
  ∧ (∀ r, requests (store svc) !! id = Some r → status r ≠ pending →
       (dismiss id svc).2 = svc)
  ∧ (requests (store svc) !! id = None → (dismiss id svc).2 = svc)
  ∧ (∀ id', id' ≠ id →
       requests (store (dismiss id svc).2) !! id' = requests (store svc) !! id')
  ∧ ledger (dismiss id svc).2 = ledger svc.
Proof.
  assert (dismiss id (dismiss id svc).2 = (true, (dismiss id svc).2)) as Htwice.
  { unfold dismiss at 2 3.
    destruct (transition id dismissed (store svc)) as [e|s'] eqn:Ht; simpl.
    - unfold dismiss. by rewrite Ht.
    - unfold dismiss. simpl. by rewrite (transition_twice _ _ _ _ Ht). }
  assert (∀ n, Nat.iter n (λ s, (dismiss id s).2) (dismiss id svc).2
               = (dismiss id svc).2) as Hiter.
  { induction n as [|n IH]; [done|]. simpl. rewrite IH. by rewrite Htwice. }
  split_and!.
  - unfold dismiss. by destruct (transition _ _ _).
  - done.
  - done.
  - intros r Hid Hp.
    assert (requests (store (dismiss id svc).2) !! id = Some (with_status dismissed r))
      as Hnow.
    { unfold dismiss, transition. rewrite Hid, Hp. simpl. by rewrite lookup_insert_eq. }
    split; [done|]. exists (with_status dismissed r).
    split_and!; try done. intros n. by rewrite Hiter.
  - intros r Hid Hp. unfold dismiss, transition. rewrite Hid.
    by destruct (status r).
  - intros Hid. unfold dismiss, transition. by rewrite Hid.
  - intros id' Hne. unfold dismiss, transition.
    destruct (requests (store svc) !! id) as [r|]; [|done].
    destruct (status r); simpl; try done. by rewrite lookup_insert_ne.
  - unfold dismiss. by destruct (transition _ _ _).
Qed.

End Idempotence.

Section Ledger.
Import TrustLedger.

Lemma records_none identity (l : TrustLedger.t) :
  identity ∉ client_id <$> l → records identity l = [].
Proof.
  unfold records. induction l as [|c l IH]; intros Hnot; [done|].
  rewrite fmap_cons in Hnot. apply not_elem_of_cons in Hnot as [Hne Hnot].
  rewrite filter_cons_False by done. by apply IH.
Qed.

Lemma is_trusted_spec identity l :
  is_trusted identity l = true ↔ identity ∈ client_id <$> l.
Proof. unfold is_trusted. apply bool_decide_eq_true. Qed.

(** [grant] keeps the ledger at one record per identity, which the empty
    ledger is. *)
Lemma grant_one_record_each identity now l :
  one_record_each l → one_record_each (grant identity now l).2.
Proof.
  unfold grant, one_record_each. intros Hl.
  destruct (is_trusted identity l) eqn:Ht; simpl; [done|].
  rewrite fmap_app. apply NoDup_app. split_and!; [done| |apply NoDup_singleton].
  intros x Hx [->|[]%elem_of_nil]%elem_of_cons.
  simpl in Hx. apply is_trusted_spec in Hx. congruence.
Qed.

Lemma records_trusted identity l :
  one_record_each l → is_trusted identity l = true →
  ∃ c, records identity l = [c] ∧ client_id c = identity.
Proof.
  unfold one_record_each, records. rewrite is_trusted_spec.
  induction l as [|c l IH]; intros Hnd Hin.
  - by apply elem_of_nil in Hin.
  - rewrite fmap_cons in Hnd, Hin. apply NoDup_cons in Hnd as [Hc Hnd].
    destruct (decide (client_id c = identity)) as [Heq|Hne].
    + exists c. split; [|done]. rewrite filter_cons_True by done. f_equal.
      apply records_none. by rewrite <- Heq.
    + destruct IH as (c' & Hc' & Hid'); [done| |].
      * apply elem_of_cons in Hin as [Heq|Hin]; [by subst|done].
      * exists c'. by rewrite filter_cons_False.
Qed.

(** The second grant of two, on a ledger that did not know the identity. *)
Lemma grant_twice identity t1 t2 l :
  one_record_each l →
  is_trusted identity l = false →
  grant identity t2 (grant identity t1 l).2 = (false, (grant identity t1 l).2)
  ∧ records identity (grant identity t1 l).2 =
      [{| client_id := identity; granted_at := t1 |}].
Proof.
  intros Hl Ht.
  assert (is_trusted identity (grant identity t1 l).2 = true) as Ht1.
  { unfold grant. rewrite Ht. simpl. apply is_trusted_spec.
    rewrite fmap_app. apply elem_of_app. right. by apply list_elem_of_singleton. }
  split.
  - unfold grant at 1. by rewrite Ht1.
  - unfold grant. rewrite Ht. simpl. unfold records. rewrite filter_app.
    fold (records identity l). rewrite records_none.
    + by rewrite filter_cons_True.
    + intros Hin%is_trusted_spec. congruence.
Qed.

(** C4.  In a ledger with at most one record per identity (the empty ledger
    is one, and [grant] keeps it so): granting an identity that is already
    trusted answers [newly_granted=false] and leaves the ledger as it is,
    so there is exactly one record of the identity, the one there was, with
    the [granted_at] it had; and granting a new identity twice, at [now] and
    at [later], leaves exactly one record, with [granted_at = now]. *)
Theorem grant_is_idempotent
    (identity : string) (now later : Z) (l : TrustLedger.t) :
  one_record_each l →
  (is_trusted identity l = true →
     grant identity now l = (false, l)
     ∧ ∃ c, records identity l = [c]
          ∧ records identity (grant identity now l).2 = [c]
          ∧ client_id c = identity)
  ∧ (is_trusted identity l = false →
     grant identity later (grant identity now l).2
       = (false, (grant identity now l).2)
     ∧ records identity (grant identity later (grant identity now l).2).2
       = [{| client_id := identity; granted_at := now |}])
  ∧ one_record_each (grant identity now l).2.
Proof.
  intros Hl. split_and!.
  - intros Ht.
    assert (grant identity now l = (false, l)) as -> by (unfold grant; by rewrite Ht).
    split; [done|].
    destruct (records_trusted identity l Hl Ht) as (c & Hc & Hid). eauto.
  - intros Ht. destruct (grant_twice identity now later l Hl Ht) as [Hsecond Hrec].
    by rewrite Hsecond.
  - by apply grant_one_record_each.
Qed.

End Ledger.

(** * Concurrent approvals of one request *)

Section Concurrent.
Import RequestStore PairingService Approvals.
Context {identity : Identity}.

Variable svc0 : PairingService.t.
Variable id : nat.
Variable r0 : PairingRequest.
Hypothesis known : requests (store svc0) !! id = Some r0.
Hypothesis is_pending0 : status r0 = pending.

#[local] Abbreviation approved_store := (Approvals.approved_store svc0 id r0).
#[local] Abbreviation phase := (Approvals.phase svc0 id r0).
#[local] Abbreviation ledger_state := (Approvals.ledger_state svc0 r0).
#[local] Abbreviation inv := (Approvals.inv svc0 id r0).
#[local] Abbreviation phase_open := (Approvals.phase_open svc0 id r0).
#[local] Abbreviation phase_approved := (Approvals.phase_approved svc0 id r0).
#[local] Abbreviation ledger_untouched := (Approvals.ledger_untouched svc0 r0).
#[local] Abbreviation ledger_granted := (Approvals.ledger_granted svc0 r0).

Lemma lookup_set_call (l : list pc) i j c c' :
  l !! i = Some c →
  <[i := c']> l !! j = if decide (i = j) then Some c' else l !! j.
Proof.
  intros Hi. case_decide as Hij.
  - subst j. apply list_lookup_insert_eq. by apply lookup_lt_Some in Hi.
  - by apply list_lookup_insert_ne.
Qed.

(** The store before and after the approval. *)
Lemma get_open : get id (store svc0) = inr r0.
Proof. unfold get. by rewrite known. Qed.

Lemma transition_open : transition id approved (store svc0) = inr approved_store.
Proof. unfold transition. by rewrite known, is_pending0. Qed.

Lemma get_approved : get id approved_store = inr (with_status approved r0).
Proof. unfold get. simpl. by rewrite lookup_insert_eq. Qed.

Lemma transition_approved :
  transition id approved approved_store = inl InvalidTransition.
Proof. unfold transition. simpl. by rewrite lookup_insert_eq. Qed.

Lemma actual_approved : actual_answer id approved_store = already_resolved approved.
Proof. unfold actual_answer. by rewrite get_approved. Qed.

Lemma approve_pending t :
  approve id t svc0 =
    (approved_answer,
     {| store := approved_store;
        ledger := (TrustLedger.grant (identity_of r0) t (ledger svc0)).2 |}).
Proof.
  unfold approve. rewrite get_open, is_pending0, transition_open.
  rewrite bool_decide_eq_true_2 by done.
  by destruct (TrustLedger.grant _ _ _).
Qed.

(** A grant behind a grant of the same identity finds it trusted. *)
Lemma grant_again x t now (l : TrustLedger.t) :
  TrustLedger.grant x now (TrustLedger.grant x t l).2
  = (false, (TrustLedger.grant x t l).2).
Proof.
  unfold TrustLedger.grant at 2 3.
  destruct (TrustLedger.is_trusted x l) eqn:Ht; simpl.
  - unfold TrustLedger.grant. by rewrite Ht.
  - unfold TrustLedger.grant.
    assert (TrustLedger.is_trusted x
              (l ++ [{| client_id := x; granted_at := t |}]) = true) as ->; [|done].
    apply bool_decide_eq_true. rewrite fmap_app. apply elem_of_app. right.
    by apply list_elem_of_singleton.
Qed.

(** What a ledger looks like behind a grant: as before, or one record
    longer. *)
Lemma grant_appends x t (l : TrustLedger.t) :
  (TrustLedger.grant x t l).2 = l
  ∨ (TrustLedger.grant x t l).2 = l ++ [{| client_id := x; granted_at := t |}].
Proof. unfold TrustLedger.grant. destruct (TrustLedger.is_trusted x l); auto. Qed.

Lemma init_inv n : inv (init svc0 n).
Proof.
  split.
  - by intros j ?%elem_of_nil.
  - by intros j [[=] _]%lookup_replicate.
  - apply NoDup_nil_2.
  - by apply ledger_untouched.
  - apply phase_open; [done|].
    intros j c [-> _]%lookup_replicate. by left.
Qed.

(** A call moves on without a word to the service or the ledger: the log,
    the ledger and the store stay, and the invariant holds again when the
    place the call moves to fits the log and the phase. *)
Lemma set_call_inv σ i c c' :
  inv σ →
  calls σ !! i = Some c →
  (i ∈ grantors σ → ∃ a, c' = Returned a) →
  c' ≠ Granted →
  phase (set_call i c' σ) →
  inv (set_call i c' σ).
Proof.
  intros [Hlog Hgranted Honce Hledger _] Hi Hfits Hnot Hphase. split; simpl.
  - intros j Hj. unfold grantors in *. simpl in *.
    rewrite (lookup_set_call _ _ _ _ _ Hi). case_decide as Hij.
    + subst j. destruct (Hfits Hj) as [a ->]. eauto.
    + by apply Hlog.
  - intros j. rewrite (lookup_set_call _ _ _ _ _ Hi). case_decide as Hij.
    + intros [= ?]. by subst.
    + apply Hgranted.
  - done.
  - destruct Hledger as [Hl Hs|first t rest Hl Hrest Hs].
    + by apply ledger_untouched.
    + by apply (ledger_granted _ first t rest).
  - done.
Qed.

Lemma step_inv σ turn : inv σ → inv (step id σ turn).
Proof.
  intros Hinv. pose proof Hinv as [Hlog Hgranted Honce Hledger Hphase].
  destruct turn as [i now]. unfold step.
  destruct (calls σ !! i) as [c|] eqn:Hi; [|done].
  assert (∀ w, calls σ !! w = Some (Returned approved_answer) →
            (∀ a, c ≠ Returned a) → i ≠ w) as Hother.
  { intros w Hw Hc ->. rewrite Hi in Hw. injection Hw as ->. by apply (Hc approved_answer). }
  assert ((∀ a, c ≠ Returned a) → c ≠ Granted → i ∉ grantors σ) as Hfresh.
  { intros Hc Hg Hin. destruct (Hlog _ Hin) as (c' & Hc' & [->|[a ->]]);
      rewrite Hi in Hc'; injection Hc' as ->; [done|by apply (Hc a)]. }
  destruct c as [|r| |a].
  - (* the lookup *)
    specialize (Hfresh ltac:(done) ltac:(done)).
    destruct Hphase as [Hs Hc|w Hs Hw Hwin Hc].
    + rewrite Hs, get_open, is_pending0. rewrite bool_decide_eq_true_2 by done.
      apply (set_call_inv _ _ Waiting); try done.
      apply phase_open; [done|]. intros j c'. simpl.
      rewrite (lookup_set_call _ _ _ _ _ Hi). case_decide; [|by apply Hc].
      intros [= <-]. auto.
    + rewrite Hs, get_approved. simpl.
      pose proof (Hother w Hw ltac:(done)) as Hne.
      apply (set_call_inv _ _ Waiting); try done.
      apply (phase_approved _ w); simpl; try done.
      * by rewrite (lookup_set_call _ _ _ _ _ Hi), decide_False.
      * intros j c' Hj. rewrite (lookup_set_call _ _ _ _ _ Hi).
        case_decide; [|by apply Hc]. intros [= <-]. auto.
  - (* the ledger is called *)
    specialize (Hfresh ltac:(done) ltac:(done)).
    assert (r = r0) as ->.
    { destruct Hphase as [Hs Hc|w Hs Hw Hwin Hc].
      - destruct (Hc _ _ Hi) as [|[|]]; congruence.
      - destruct (Hc _ _ (Hother w Hw ltac:(done)) Hi) as [|[|[|]]]; congruence. }
    destruct (TrustLedger.grant (identity_of r0) now (ledger (service σ)))
      as [newly l'] eqn:Hgrant.
    split; unfold grantors in *; simpl.
    + intros j. rewrite fmap_app. change ([(i, newly)].*1) with [i].
      rewrite elem_of_app, list_elem_of_singleton.
      rewrite (lookup_set_call _ _ _ _ _ Hi). intros [Hj| ->].
      * case_decide; [by subst|by apply Hlog].
      * rewrite decide_True by done. eauto.
    + intros j. rewrite fmap_app. change ([(i, newly)].*1) with [i].
      rewrite elem_of_app, list_elem_of_singleton.
      rewrite (lookup_set_call _ _ _ _ _ Hi).
      case_decide; [by right|]. intros Hj. left. by apply Hgranted.
    + rewrite fmap_app. change ([(i, newly)].*1) with [i].
      apply NoDup_app. split_and!; [done| |apply NoDup_singleton].
      intros j Hj ->%list_elem_of_singleton. done.
    + destruct Hledger as [Hl Hled|first t rest Hl Hrest Hled].
      * apply (ledger_granted _ i now []); simpl.
        -- rewrite Hl. rewrite Hled in Hgrant. by rewrite Hgrant.
        -- done.
        -- rewrite Hled in Hgrant. by rewrite Hgrant.
      * rewrite Hled, grant_again in Hgrant. injection Hgrant as <- <-.
        apply (ledger_granted _ first t (rest ++ [(i, false)])); simpl.
        -- by rewrite Hl.
        -- apply Forall_app. split; [done|]. by apply Forall_singleton.
        -- done.
    + destruct Hphase as [Hs Hc|w Hs Hw Hwin Hc].
      * apply phase_open; [done|]. intros j c'. simpl.
        rewrite (lookup_set_call _ _ _ _ _ Hi). case_decide; [|by apply Hc].
        intros [= <-]. auto.
      * pose proof (Hother w Hw ltac:(done)) as Hne.
        apply (phase_approved _ w); unfold grantors; simpl; try done.
        -- by rewrite (lookup_set_call _ _ _ _ _ Hi), decide_False.
        -- rewrite fmap_app, elem_of_app. by left.
        -- intros j c' Hj. rewrite (lookup_set_call _ _ _ _ _ Hi).
           case_decide; [|by apply Hc]. intros [= <-]. auto.
  - (* the transition *)
    pose proof (Hgranted _ Hi) as Hin.
    destruct Hphase as [Hs Hc|w Hs Hw Hwin Hc].
    + rewrite Hs, transition_open.
      split; unfold grantors in *; simpl.
      * intros j Hj. rewrite (lookup_set_call _ _ _ _ _ Hi).
        case_decide; [eauto|by apply Hlog].
      * intros j. rewrite (lookup_set_call _ _ _ _ _ Hi).
        case_decide; [by intros [=]|apply Hgranted].
      * done.
      * destruct Hledger as [Hl Hled|first t rest Hl Hrest Hled].
        -- by apply ledger_untouched.
        -- by apply (ledger_granted _ first t rest).
      * apply (phase_approved _ i); unfold grantors; simpl; try done.
        -- by rewrite (lookup_set_call _ _ _ _ _ Hi), decide_True.
        -- intros j c' Hne. rewrite (lookup_set_call _ _ _ _ _ Hi).
           rewrite decide_False by done. intros Hj.
           destruct (Hc _ _ Hj) as [|[|]]; auto.
    + rewrite Hs, transition_approved, actual_approved.
      pose proof (Hother w Hw ltac:(done)) as Hne.
      apply (set_call_inv _ _ Granted); try done; [by eauto|].
      apply (phase_approved _ w); simpl; try done.
      * by rewrite (lookup_set_call _ _ _ _ _ Hi), decide_False.
      * intros j c' Hj. rewrite (lookup_set_call _ _ _ _ _ Hi).
        case_decide; [|by apply Hc]. intros [= <-]. auto.
  - done.
Qed.

Lemma run_inv schedule σ : inv σ → inv (run id schedule σ).
Proof.
  revert σ. induction schedule as [|turn schedule IH]; intros σ Hinv; [done|].
  simpl. by apply IH, step_inv.
Qed.

Lemma step_length σ turn : length (calls (step id σ turn)) = length (calls σ).
Proof.
  destruct turn as [i now]. unfold step.
  repeat case_match; simpl; try done; by rewrite length_insert.
Qed.

Lemma run_length schedule σ : length (calls (run id schedule σ)) = length (calls σ).
Proof.
  revert σ. induction schedule as [|turn schedule IH]; intros σ; [done|].
  simpl. by rewrite IH, step_length.
Qed.

(** A step of call [i] leaves the other calls where they are, and a call
    that has returned stays so. *)
Lemma step_others σ i now j : j ≠ i → calls (step id σ (i, now)) !! j = calls σ !! j.
Proof.
  intros Hne. unfold step.
  repeat case_match; simpl; try done; by rewrite list_lookup_insert_ne.
Qed.

Lemma step_returned σ turn j a :
  calls σ !! j = Some (Returned a) → calls (step id σ turn) !! j = Some (Returned a).
Proof.
  destruct turn as [i now]. intros Hj.
  destruct (decide (j = i)) as [->|Hne]; [|by rewrite step_others].
  unfold step. by rewrite Hj.
Qed.

Lemma run_returned schedule σ j a :
  calls σ !! j = Some (Returned a) → calls (run id schedule σ) !! j = Some (Returned a).
Proof.
  revert σ. induction schedule as [|turn schedule IH]; intros σ Hj; [done|].
  simpl. by apply IH, step_returned.
Qed.

(** A call that has its answer calls the ledger no more: whatever steps
    follow, the log holds the calls it made before and no other of its. *)
Lemma step_log_returned σ turn j a :
  calls σ !! j = Some (Returned a) →
  filter (λ entry, entry.1 = j) (grant_log (step id σ turn))
  = filter (λ entry, entry.1 = j) (grant_log σ).
Proof.
  intros Hj. destruct turn as [i now]. unfold step.
  destruct (calls σ !! i) as [c|] eqn:Hi; [|done].
  destruct c as [|r| |a']; try done.
  - by repeat case_match.
  - destruct (TrustLedger.grant _ _ _) as [newly l']. simpl.
    rewrite filter_app, filter_cons_False, filter_nil, app_nil_r; [done|].
    simpl. intros ->. congruence.
  - by repeat case_match.
Qed.

Lemma run_log_returned schedule σ j a :
  calls σ !! j = Some (Returned a) →
  filter (λ entry, entry.1 = j) (grant_log (run id schedule σ))
  = filter (λ entry, entry.1 = j) (grant_log σ).
Proof.
  revert σ. induction schedule as [|turn schedule IH]; intros σ Hj; [done|].
  simpl. rewrite IH by (by apply step_returned). by apply (step_log_returned _ _ _ a).
Qed.

(** No call ever waits for another: each of its steps brings it closer to
    its return, wherever the other calls stand. *)
Lemma step_progress σ i now c :
  calls σ !! i = Some c →
  ∃ c', calls (step id σ (i, now)) !! i = Some c' ∧ (rank c' ≤ pred (rank c))%nat.
Proof.
  intros Hi. unfold step. rewrite Hi.
  assert (∀ c', <[i := c']> (calls σ) !! i = Some c') as Hset.
  { intros c'. apply list_lookup_insert_eq. by apply lookup_lt_Some in Hi. }
  destruct c as [|r| |a]; simpl.
  - repeat case_match; simpl; eexists; (split; [apply Hset|]); simpl; lia.
  - repeat case_match; simpl; eexists; (split; [apply Hset|]); simpl; lia.
  - repeat case_match; simpl; eexists; (split; [apply Hset|]); simpl; lia.
  - exists (Returned a). split; [done|]. simpl. lia.
Qed.

Lemma solo_returns k σ i now c :
  calls σ !! i = Some c →
  (rank c ≤ k)%nat →
  ∃ a, calls (run id (solo i now k) σ) !! i = Some (Returned a).
Proof.
  revert σ c. induction k as [|k IH]; intros σ c Hi Hk.
  - destruct c; simpl in Hk; try lia. simpl. eauto.
  - change (run id (solo i now (S k)) σ)
      with (run id (solo i now k) (step id σ (i, now))).
    destruct (step_progress σ i now c Hi) as (c' & Hi' & Hr).
    apply (IH _ c'); [done|lia].
Qed.

Lemma rank_le_3 c : (rank c ≤ 3)%nat.
Proof. destruct c; simpl; lia. Qed.

Lemma run_app_calls a b σ : run id (a ++ b) σ = run id b (run id a σ).
Proof. apply foldl_app. Qed.

Lemma in_turn_cons now i order :
  in_turn now (i :: order) = solo i now 3 ++ in_turn now order.
Proof. done. Qed.

Lemma solo_absent k σ i now :
  calls σ !! i = None → run id (solo i now k) σ = σ.
Proof.
  intros Hnone. induction k as [|k IH]; [done|].
  change (run id (solo i now (S k)) σ)
    with (run id (solo i now k) (step id σ (i, now))).
  assert (step id σ (i, now) = σ) as -> by (unfold step; by rewrite Hnone).
  done.
Qed.

Lemma in_turn_returns now order σ :
  ∀ i, i ∈ order → (i < length (calls σ))%nat →
    ∃ a, calls (run id (in_turn now order) σ) !! i = Some (Returned a).
Proof.
  revert σ. induction order as [|i order IH]; intros σ.
  - by intros i ?%elem_of_nil.
  - rewrite in_turn_cons, run_app_calls.
    destruct (decide (i < length (calls σ))%nat) as [Hlt|Hge].
    + destruct (lookup_lt_is_Some_2 _ _ Hlt) as [c Hi].
      destruct (solo_returns 3 σ i now c Hi (rank_le_3 c)) as (a & Ha).
      intros j [->|Hj]%elem_of_cons Hj'.
      * exists a. by apply run_returned.
      * apply IH; [done|]. by rewrite run_length.
    + rewrite solo_absent by (apply lookup_ge_None; lia).
      intros j [->|Hj]%elem_of_cons Hj'; [lia|by apply IH].
Qed.

Lemma finished_spec σ :
  finished σ = true ↔ ∀ i c, calls σ !! i = Some c → ∃ a, c = Returned a.
Proof.
  unfold finished. rewrite forallb_forall. split.
  - intros Hall i c Hi. specialize (Hall c).
    destruct c; try (by eauto); discriminate Hall;
      apply list_elem_of_In, list_elem_of_lookup; eauto.
  - intros Hall c [i Hi]%list_elem_of_In%list_elem_of_lookup.
    by destruct (Hall i c Hi) as [a ->].
Qed.

(** From wherever the calls stand, they can all be run to their return. *)
Lemma can_finish σ : ∃ schedule, finished (run id schedule σ) = true.
Proof.
  exists (in_turn 0 (seq 0 (length (calls σ)))).
  apply finished_spec. intros i c Hi.
  assert (i < length (calls σ))%nat as Hlt.
  { apply lookup_lt_Some in Hi. by rewrite run_length in Hi. }
  destruct (in_turn_returns 0 (seq 0 (length (calls σ))) σ i) as [a Ha].
  - apply elem_of_seq. lia.
  - done.
  - exists a. congruence.
Qed.

(** A call that runs alone is [approve]. *)
Lemma alone_is_approve (svc : PairingService.t) (now : Z) :
  calls (run id (solo 0 now 3) (init svc 1)) = [Returned (approve id now svc).1]
  ∧ service (run id (solo 0 now 3) (init svc 1)) = (approve id now svc).2.
Proof.
  unfold approve. simpl.
  destruct (get id (store svc)) as [e|r] eqn:Hget; simpl; [done|].
  case_bool_decide; simpl; [|done].
  destruct (TrustLedger.grant (identity_of r) now (ledger svc)) as [newly l'].
  simpl. by destruct (transition id approved (store svc)).
Qed.

(** C1.  Any number of calls of [approve] on one pending request, running
    together in any interleaving [schedule] of their steps.  At any time: no
    call has called [TrustLedger.grant] more than once; a call that has its
    answer calls it no more, whatever steps follow, so a call that was told
    AlreadyResolved does not come back to the ledger; at most one of all the
    calls of [grant] was answered [newly_granted=true]; and the ledger is as
    it was or one record longer, the record of the identity of the
    request.  Once every call has returned: exactly one call
    has the answer [ok=true, status=approved], and it has called the ledger;
    every other call has the answer AlreadyResolved, [ok=false], with the
    actual status [approved];
    the request is [approved] and its identity trusted; and the service is
    as after one [approve] alone.  And the calls can always be run on until
    every one has returned. *)
Theorem one_approval_wins (n : nat) (schedule : list (nat * Z)) :
  (0 < n)%nat →
  NoDup (grantors (run id schedule (init svc0 n)))
  ∧ (newly_granted (run id schedule (init svc0 n)) ≤ 1)%nat
  ∧ (length (filter (λ entry, entry.2 = true)
               (grant_log (run id schedule (init svc0 n)))) ≤ 1)%nat
  ∧ (∀ j a rest,
       calls (run id schedule (init svc0 n)) !! j = Some (Returned a) →
       filter (λ entry, entry.1 = j)
         (grant_log (run id (schedule ++ rest) (init svc0 n)))
       = filter (λ entry, entry.1 = j) (grant_log (run id schedule (init svc0 n))))
  ∧ (ledger (service (run id schedule (init svc0 n))) = ledger svc0
     ∨ ∃ t, ledger (service (run id schedule (init svc0 n))) =
              ledger svc0 ++ [{| client_id := identity_of r0; granted_at := t |}])
  ∧ (finished (run id schedule (init svc0 n)) = true →
     ∃ winner a,
       calls (run id schedule (init svc0 n)) !! winner = Some (Returned a)
       ∧ ok a = true
       ∧ answer_status a = Some approved
       ∧ failure a = None
       ∧ winner ∈ grantors (run id schedule (init svc0 n))
       ∧ (∀ j, (j < n)%nat → j ≠ winner →
            ∃ a', calls (run id schedule (init svc0 n)) !! j = Some (Returned a')
                  ∧ ok a' = false
                  ∧ failure a' = Some AlreadyResolved
                  ∧ answer_status a' = Some approved)
       ∧ (∃ r, requests (store (service (run id schedule (init svc0 n)))) !! id
                 = Some r
               ∧ status r = approved)
       ∧ TrustLedger.is_trusted (identity_of r0)
           (ledger (service (run id schedule (init svc0 n)))) = true
       ∧ ∃ t, service (run id schedule (init svc0 n)) = (approve id t svc0).2)
  ∧ ∃ rest, finished (run id (schedule ++ rest) (init svc0 n)) = true.
Proof.
  intros Hn.
  pose proof (run_inv schedule _ (init_inv n)) as Hinv.
  pose proof (run_length schedule (init svc0 n)) as Hlen.
  simpl in Hlen. rewrite length_replicate in Hlen.
  assert (length (filter (λ entry : nat * bool, entry.2 = true)
                    (grant_log (run id schedule (init svc0 n)))) ≤ 1)%nat as Hnewly.
  { destruct (inv_ledger _ _ _ _ Hinv) as [-> _|first t rest -> Hrest _]; [simpl; lia|].
    assert (filter (λ entry : nat * bool, entry.2 = true) rest = []) as Hnone.
    { clear -Hrest. induction Hrest as [|entry rest Hentry _ IH]; [done|].
      rewrite filter_cons_False; [done|]. by rewrite Hentry. }
    destruct ((TrustLedger.grant (identity_of r0) t (ledger svc0)).1).
    - rewrite filter_cons_True by done. rewrite Hnone. simpl. lia.
    - rewrite filter_cons_False by done. rewrite Hnone. simpl. lia. }
  split_and!.
  - apply (inv_once _ _ _ _ Hinv).
  - exact Hnewly.
  - exact Hnewly.
  - intros j a rest Hj. rewrite run_app_calls. by apply (run_log_returned _ _ _ a).
  - destruct (inv_ledger _ _ _ _ Hinv) as [_ ->|first t rest _ _ ->]; [by left|].
    destruct (grant_appends (identity_of r0) t (ledger svc0)) as [->| ->]; eauto.
  - intros Hfin. rewrite finished_spec in Hfin.
    destruct (lookup_lt_is_Some_2 (calls (run id schedule (init svc0 n))) 0)
      as [c0 H0]; [lia|].
    destruct (Hfin _ _ H0) as [a0 ->].
    destruct (inv_phase _ _ _ _ Hinv) as [_ Hc|w Hs Hw Hwin Hc].
    + destruct (Hc _ _ H0) as [|[|]]; done.
    + exists w, approved_answer. split_and!; try done.
      * intros j Hj Hne.
        destruct (lookup_lt_is_Some_2 (calls (run id schedule (init svc0 n))) j)
          as [c Hc']; [lia|].
        destruct (Hfin _ _ Hc') as [a ->].
        exists a. split; [done|].
        destruct (Hc _ _ Hne Hc') as [|[|[|[= ->]]]]; done.
      * exists (with_status approved r0). rewrite Hs. simpl.
        by rewrite lookup_insert_eq.
      * destruct (inv_ledger _ _ _ _ Hinv) as [Hl _|first t rest _ _ ->].
        -- unfold grantors in Hwin. rewrite Hl in Hwin. by apply elem_of_nil in Hwin.
        -- pose proof (grant_again (identity_of r0) t 0 (ledger svc0)) as Hagain.
           unfold TrustLedger.grant at 1 in Hagain.
           by destruct (TrustLedger.is_trusted _ (TrustLedger.grant _ _ _).2).
      * destruct (inv_ledger _ _ _ _ Hinv) as [Hl _|first t rest _ _ Hled].
        -- unfold grantors in Hwin. rewrite Hl in Hwin. by apply elem_of_nil in Hwin.
        -- exists t. rewrite approve_pending. simpl.
           destruct (service (run id schedule (init svc0 n))) as [s l].
           simpl in *. by subst.
  - destruct (can_finish (run id schedule (init svc0 n))) as [rest Hrest]. exists rest.
    by rewrite run_app_calls.
Qed.

End Concurrent.

Section Card.
Import PollingGateway.
Context {host : Host}.

Lemma encode_request_id v :
  encode_fields v !! "request_id" = Some (JStr (token (PairingService.view_id v))).
Proof. unfold encode_fields. by rewrite lookup_insert_eq. Qed.

Lemma encode_status v :
  encode_fields v !! "status" = Some (JStr (status_name (PairingService.view_status v))).
Proof.
  unfold encode_fields. rewrite lookup_insert_ne by done. by rewrite lookup_insert_eq.
Qed.

Lemma encode_client_ip v :
  encode_fields v !! "client_ip" = JStr <$> PairingService.view_ip v.
Proof.
  unfold encode_fields. rewrite !lookup_insert_ne by done.
  destruct (PairingService.view_ip v); [by rewrite lookup_singleton_eq|done].
Qed.

Lemma client_text_subst v :
  to_string (js_or (default JUndefined (encode_fields v !! "client_ip")) (JStr "unknown"))
  = Some (client_text v).
Proof.
  rewrite encode_client_ip. unfold client_text, js_or.
  destruct (PairingService.view_ip v) as [ip|]; [|done]. simpl.
  by destruct (String.eqb ip EmptyString).
Qed.

(** A 2xx response that lists at least one request shows the card of the
    first one listed. *)
Lemma fetchRequests_card v rest c w :
  content (dom w) = Some c →
  fetchRequests (Resolved (requests_response (v :: rest))) w =
    (Normal tt, rendered (card_of v) (sent (GET "/daemon/pairing/requests") w)).
Proof.
  intros Hel.
  unfold fetchRequests, try_catch, mbind, JS_bind, fetch.
  change (res_ok (requests_response (v :: rest))) with true. cbn [negb].
  unfold res_json, requests_response. cbn [json_body mret JS_ret].
  unfold getElementById. cbn [String.eqb Ascii.eqb Bool.eqb sent dom].
  rewrite Hel. unfold get at 1. cbn [mret JS_ret].
  rewrite lookup_singleton_eq. cbn [from_option Datatypes.id js_or truthy].
  unfold get at 1. cbn [String.eqb Ascii.eqb Bool.eqb mret JS_ret].
  rewrite truthy_length. rewrite fmap_cons. cbn [length Nat.eqb negb].
  unfold get_first. cbn [head mret JS_ret from_option Datatypes.id].
  unfold encode at 1 2 3 4 5. unfold get. cbn [mret JS_ret].
  unfold subst. rewrite client_text_subst. cbn [mret JS_ret].
  rewrite encode_request_id, encode_status.
  cbn [from_option Datatypes.id to_string call_toUpperCase mret JS_ret].
  done.
Qed.

Lemma prefix_here p s : String.prefix p (p ++ s) = true.
Proof.
  induction p as [|c p IH]; simpl; [by destruct s|].
  by destruct (ascii_dec c c).
Qed.

Lemma prefix_app a x y : String.prefix (a ++ x) (a ++ y) = String.prefix x y.
Proof.
  induction a as [|c a IH]; simpl; [done|].
  by destruct (ascii_dec c c).
Qed.

Lemma occurs_here p s : occurs p (p ++ s) = true.
Proof. destruct p, s; simpl; try done; by rewrite ?prefix_here; destruct (ascii_dec _ _). Qed.

Lemma occurs_later a p s : occurs p s = true → occurs p (a ++ s) = true.
Proof.
  intros Hs. induction a as [|c a IH]; simpl; [done|].
  rewrite IH. apply orb_true_r.
Qed.

Lemma append_assoc (a b c : string) : (a ++ b ++ c = (a ++ b) ++ c)%string.
Proof.
  induction a as [|x a IH]; [done|].
  change (String x (a ++ b ++ c) = String x ((a ++ b) ++ c)). by rewrite IH.
Qed.

Lemma occurs_call f id rest :
  occurs (f ++ id ++ "')") (f ++ id ++ "')" ++ rest) = true.
Proof.
  rewrite (append_assoc id "')" rest), (append_assoc f (id ++ "')") rest).
  apply occurs_here.
Qed.

End Card.

(** [occurs p (card ...)]: the pieces of the template are passed one by
    one, up to the piece [f]; then [p] is a call of [f]. *)
Ltac pass_to_call f :=
  unfold card;
  repeat lazymatch goal with
    | |- occurs _ (?a ++ _)%string = true =>
        lazymatch a with
        | f => fail
        | _ => apply occurs_later
        end
    end;
  apply occurs_call.

Section Shown.
Import PollingGateway.
Context {host : Host}.

(** C6 (amended).  When the service lists at least one pending request, the
    page shows the card of the first request of the list (reqs[0]) and
    wires Ignore and Accept to its identifier; by the order of the list
    that is the oldest pending request. *)
Theorem fetchRequests_shows_first_listed
    (now : Z) (s : RequestStore.t) (r : PairingRequest)
    (rest : list PairingRequest) (c : string) (w : world) :
  (RequestStore.list_pending now s).1 = r :: rest →
  content (dom w) = Some c →
  fetchRequests
    (Resolved
       (requests_response
          (PairingService.view_of <$> (RequestStore.list_pending now s).1))) w =
    (Normal tt,
     rendered (card_of (PairingService.view_of r))
       (sent (GET "/daemon/pairing/requests") w))
  ∧ oldest (RequestStore.list_pending now s).1 r
  ∧ occurs ("dismiss('" ++ token (request_id r) ++ "')")
      (card_of (PairingService.view_of r)) = true
  ∧ occurs ("approve('" ++ token (request_id r) ++ "')")
      (card_of (PairingService.view_of r)) = true.
Proof.
  intros Hl Hel. split_and!.
  - rewrite Hl, fmap_cons. by apply (fetchRequests_card _ _ c).
  - pose proof (list_pending_sorted now s) as Hsorted.
    rewrite Hl in *. split; [apply list_elem_of_here|].
    apply StronglySorted_inv in Hsorted as [_ Hall].
    intros r' [->|Hr']%elem_of_cons; [done|].
    by apply (proj1 (Forall_forall _ _) Hall).
  - unfold card_of. pass_to_call "dismiss('".
  - unfold card_of. pass_to_call "approve('".
Qed.

End Shown.

(** * More of the script *)

Section Ends.
Context {host : Host}.

Lemma ends_bind {A B} (m : JS A) (k : A → JS B) w N T :
  ends m w (λ a w', ends (k a) w' N T) T → ends (m ≫= k) w N T.
Proof.
  unfold ends, mbind, JS_bind. by destruct (m w) as [[a|e] w'].
Qed.

(** A statement that leaves the world alone ends in the world it started
    in. *)
Lemma ends_keeps {A} (m : JS A) w (N : A → world → Prop) (T : exn → world → Prop) :
  keeps (λ w, w) m → (∀ a, N a w) → (∀ e, T e w) → ends m w N T.
Proof.
  intros Hm HN HT. unfold ends. specialize (Hm w).
  destruct (m w) as [[a|e] w']; simpl in Hm; subst w'; auto.
Qed.

Lemma ends_try_catch {A} (m : JS A) h w (N : A → world → Prop) T :
  ends m w N (λ e w', ends (h e) w' N T) → ends (try_catch m h) w N T.
Proof.
  unfold ends, try_catch. by destruct (m w) as [[a|e] w'].
Qed.

Lemma ends_weaken {A} (m : JS A) w (N N' : A → world → Prop) (T T' : exn → world → Prop) :
  ends m w N T →
  (∀ a w', N a w' → N' a w') → (∀ e w', T e w' → T' e w') →
  ends m w N' T'.
Proof.
  unfold ends. destruct (m w) as [[a|e] w']; auto.
Qed.

End Ends.

(** One statement that reads without writing: its value is taken as it
    comes, and an exception leaves the world where it was. *)
Ltac ends_read :=
  apply ends_bind; apply ends_keeps;
  [solve [keeps_steps] | intros ? | intros ?; reflexivity].

Section Outcomes.
Context {host : Host}.

(** The handlers cut at their [await]s are the handlers. *)
Lemma fetchRequests_in_pieces net w :
  fetchRequests net w =
    match net with
    | Rejected =>
        (Normal tt,
         logged "Failed to fetch pairing requests" NetworkError
           (sent (GET "/daemon/pairing/requests") w))
    | Resolved res =>
        if negb (res_ok res) then (Normal tt, sent (GET "/daemon/pairing/requests") w)
        else fetchRequests_after_json res (sent (GET "/daemon/pairing/requests") w)
    end.
Proof.
  destruct net as [|res]; [done|].
  unfold fetchRequests, fetchRequests_after_json, fetchRequests_render,
    try_catch, mbind, JS_bind, fetch.
  by destruct (res_ok res).
Qed.

Lemma approve_in_pieces id net w :
  approve id net w =
    match net with
    | Rejected =>
        (Normal tt,
         logged "Failed to approve pairing" NetworkError
           (sent (POST "/daemon/pairing/approve" id) w))
    | Resolved res =>
        approve_after_json res (sent (POST "/daemon/pairing/approve" id) w)
    end.
Proof. by destruct net. Qed.

(** Every way [fetchRequests] can end once it has its response: an error is
    logged, or (on a page that has [#daemon-content]) the container gets the
    empty state or a card. *)
Lemma fetchRequests_after_json_cases res W :
  (∃ e, (fetchRequests_after_json res W).2 =
          logged "Failed to fetch pairing requests" e W)
  ∨ (is_Some (content (dom W))
     ∧ ((fetchRequests_after_json res W).2 = rendered empty_state W
        ∨ ∃ client id status id_dismiss id_approve,
            (fetchRequests_after_json res W).2 =
              rendered (card client id status id_dismiss id_approve) W)).
Proof.
  set (N := λ (_ : unit) (w' : world),
    (∃ e, w' = logged "Failed to fetch pairing requests" e W)
    ∨ (is_Some (content (dom W))
       ∧ (w' = rendered empty_state W
          ∨ ∃ client id status id_dismiss id_approve,
              w' = rendered (card client id status id_dismiss id_approve) W))).
  set (T := λ (_ : exn) (w' : world), w' = W).
  assert (∀ el html,
    el = None ∨ el = Some daemon_content ∧ is_Some (content (dom W)) →
    html = empty_state ∨ (∃ a b c d e, html = card a b c d e) →
    ends (set_innerHTML el html) W N T) as Hset.
  { intros el html [->|[-> Hel]] Hhtml; unfold ends, set_innerHTML; [done|].
    right. split; [done|].
    destruct Hhtml as [->|(a & b & c & d & e & ->)]; [by left|].
    right. by exists a, b, c, d, e. }
  assert (ends (fetchRequests_after_json res) W N (λ _ _, False)) as Hends.
  { unfold fetchRequests_after_json. apply ends_try_catch.
    apply (ends_weaken _ _ N _ T); [|done|].
    2:{ intros e w' ->. unfold ends, console_error. left. by exists e. }
    ends_read. unfold fetchRequests_render.
    apply ends_bind. unfold ends at 1, getElementById.
    cbn [String.eqb Ascii.eqb Bool.eqb].
    assert (∀ el, el = None ∨ el = Some daemon_content ∧ is_Some (content (dom W)) →
      ends
        (requests ← get a "requests";
         let reqs := js_or requests (JArr []) in
         len ← get reqs "length";
         if negb (truthy len) then set_innerHTML el empty_state
         else
           r ← get_first reqs;
           client_ip ← get r "client_ip";
           client ← subst (js_or client_ip (JStr "unknown"));
           request_id ← get r "request_id";
           id ← subst request_id;
           status ← get r "status";
           upper ← call_toUpperCase status;
           request_id ← get r "request_id";
           id_dismiss ← subst request_id;
           request_id ← get r "request_id";
           id_approve ← subst request_id;
           set_innerHTML el (card client id upper id_dismiss id_approve)) W N T)
      as Hrest.
    { intros el Hel. ends_read. cbv zeta. ends_read.
      destruct (negb (truthy _)); [apply Hset; auto|].
      repeat ends_read. apply Hset; eauto 10. }
    destruct (content (dom W)) as [c|]; apply Hrest; eauto. }
  unfold ends in Hends.
  destruct (fetchRequests_after_json res W) as [[[]|e] w']; [exact Hends|done].
Qed.

(** Every way [fetchRequests] can end: the response is dropped, an error is
    logged, or (on a page that has [#daemon-content]) the container gets the
    empty state or a card. *)
Lemma fetchRequests_cases net w :
  (fetchRequests net w).2 = sent (GET "/daemon/pairing/requests") w
  ∨ (∃ e, (fetchRequests net w).2 =
            logged "Failed to fetch pairing requests" e
              (sent (GET "/daemon/pairing/requests") w))
  ∨ (is_Some (content (dom w))
     ∧ ((fetchRequests net w).2 =
          rendered empty_state (sent (GET "/daemon/pairing/requests") w)
        ∨ ∃ client id status id_dismiss id_approve,
            (fetchRequests net w).2 =
              rendered (card client id status id_dismiss id_approve)
                (sent (GET "/daemon/pairing/requests") w))).
Proof.
  rewrite fetchRequests_in_pieces. destruct net as [|res].
  - right. left. by exists NetworkError.
  - destruct (res_ok res); cbn [negb]; [|by left].
    destruct (fetchRequests_after_json_cases res
                (sent (GET "/daemon/pairing/requests") w)) as [[e He]|[Hel Hc]].
    + right. left. by exists e.
    + right. right. by split.
Qed.

(** X1.  No exception leaves a handler: whatever the daemon answers and
    whatever the page holds, [fetchRequests], [approve], [dismiss] and the
    top-level statements of the script all complete, every failure inside
    them ending in the [catch] that logs it. *)
Theorem handlers_never_throw
    (id : string) (net net' : fetch_outcome) (w : world) :
  (fetchRequests net w).1 = Normal tt
  ∧ (approve id net w).1 = Normal tt
  ∧ (dismiss id net net' w).1 = Normal tt
  ∧ (main net w).1 = Normal tt.
Proof.
  split_and!; try apply try_catch_console_returns.
  unfold main, mbind, JS_bind.
  pose proof (fetchRequests_returns net w) as Hr.
  by destruct (fetchRequests net w) as [[[]|e] w'].
Qed.

(** X2.  What one poll does to the world.  It sends its one GET and never
    touches a timer or closes the window.  Either the page stays exactly as
    it was, with at most one line "Failed to fetch pairing requests" logged;
    or, on a page that has [#daemon-content] only, nothing is logged, the
    container is given the empty state or a card, and the status row is the
    one the browser builds from that markup: it does not depend on what the
    row said before. *)
Theorem fetchRequests_effect (net : fetch_outcome) (w : world) :
  network (fetchRequests net w).2 = network w ++ [GET "/daemon/pairing/requests"]
  ∧ timeouts (fetchRequests net w).2 = timeouts w
  ∧ intervals (fetchRequests net w).2 = intervals w
  ∧ closed (fetchRequests net w).2 = closed w
  ∧ (dom (fetchRequests net w).2 = dom w
     ∧ (console (fetchRequests net w).2 = console w
        ∨ ∃ e, console (fetchRequests net w).2 =
                 console w ++ [("Failed to fetch pairing requests", e)])
     ∨ is_Some (content (dom w))
       ∧ console (fetchRequests net w).2 = console w
       ∧ ∃ html,
           (html = ("<p class=" ++ String "034" "daemon-empty"
                      ++ String "034" ">No pending pairing requests.</p>")%string
            ∨ ∃ client id status id_dismiss id_approve,
                html = card client id status id_dismiss id_approve)
           ∧ content (dom (fetchRequests net w).2) = Some html
           ∧ status_row (dom (fetchRequests net w).2) = parse_status_row html).
Proof.
  destruct (fetchRequests_cases net w)
    as [->|[[e ->]|[Hel [->|(c & i & s & d & a & ->)]]]]; simpl.
  - split_and!; try done. left. auto.
  - split_and!; try done. left. eauto.
  - split_and!; try done. right. split_and!; try done.
    exists empty_state. split_and!; try done. by left.
  - split_and!; try done. right. split_and!; try done.
    exists (card c i s d a). split_and!; try done. right. by exists c, i, s, d, a.
Qed.

(** On a 2xx response whose [requests] is a non-empty array, the handler
    is the rendering of the first element. *)
Lemma fetchRequests_first res o r rest w :
  res_ok res = true →
  json_body res = Some (JObj o) →
  o !! "requests" = Some (JArr (r :: rest)) →
  fetchRequests (Resolved res) w =
    try_catch
      (el ← getElementById "daemon-content";
       client_ip ← get r "client_ip";
       client ← subst (js_or client_ip (JStr "unknown"));
       request_id ← get r "request_id";
       id ← subst request_id;
       status ← get r "status";
       upper ← call_toUpperCase status;
       request_id ← get r "request_id";
       id_dismiss ← subst request_id;
       request_id ← get r "request_id";
       id_approve ← subst request_id;
       set_innerHTML el (card client id upper id_dismiss id_approve))
      (λ err, console_error "Failed to fetch pairing requests" err)
      (sent (GET "/daemon/pairing/requests") w).
Proof.
  intros Hok Hbody Hr.
  unfold fetchRequests, try_catch, mbind, JS_bind, fetch, res_json.
  rewrite Hok, Hbody. cbn [negb mret JS_ret].
  destruct (getElementById "daemon-content" _) as [[el|e] w'] eqn:Hel; [|done].
  unfold get at 1. cbn [mret JS_ret]. rewrite Hr.
  cbn [from_option Datatypes.id js_or truthy].
  unfold get at 1. cbn [String.eqb Ascii.eqb Bool.eqb mret JS_ret].
  rewrite truthy_length. cbn [length Nat.eqb negb].
  unfold get_first. cbn [head mret JS_ret from_option Datatypes.id].
  reflexivity.
Qed.

(** X3.  Only the first listed request is read: two 2xx responses whose
    [requests] arrays start with the same element lead to the same world,
    whatever follows in the arrays and whatever else the bodies hold. *)
Theorem fetchRequests_reads_first_only
    (res1 res2 : response) (o1 o2 : gmap string jsval)
    (r : jsval) (rest1 rest2 : list jsval) (w : world) :
  res_ok res1 = true → json_body res1 = Some (JObj o1) →
  res_ok res2 = true → json_body res2 = Some (JObj o2) →
  o1 !! "requests" = Some (JArr (r :: rest1)) →
  o2 !! "requests" = Some (JArr (r :: rest2)) →
  fetchRequests (Resolved res1) w = fetchRequests (Resolved res2) w.
Proof.
  intros Hok1 Hbody1 Hok2 Hbody2 Hr1 Hr2.
  rewrite (fetchRequests_first res1 o1 r rest1) by done.
  by rewrite (fetchRequests_first res2 o2 r rest2).
Qed.

(** X4.  The card of the first listed request.  On a page that has
    [#daemon-content], a 2xx response whose first listed request is an
    object with a string [status] puts its card on the page: the client is
    [client_ip], or "unknown" when that is missing, null or empty; the
    [status] is put in capitals; [request_id] is printed as it is, in the
    text and inside both [onclick] attributes, with no escaping (a missing
    one prints as "undefined"). *)
Theorem fetchRequests_renders_first
    (res : response) (o f : gmap string jsval) (rest : list jsval)
    (status client id c : string) (w : world) :
  res_ok res = true →
  json_body res = Some (JObj o) →
  o !! "requests" = Some (JArr (JObj f :: rest)) →
  content (dom w) = Some c →
  f !! "status" = Some (JStr status) →
  to_string (js_or (default JUndefined (f !! "client_ip")) (JStr "unknown"))
    = Some client →
  to_string (default JUndefined (f !! "request_id")) = Some id →
  fetchRequests (Resolved res) w =
    (Normal tt,
     rendered (card client id (toUpperCase status) id id)
       (sent (GET "/daemon/pairing/requests") w)).
Proof.
  intros Hok Hbody Hr Hel Hstatus Hclient Hid.
  rewrite (fetchRequests_first res o (JObj f) rest) by done.
  unfold try_catch, mbind, JS_bind, getElementById, get, subst.
  cbn [String.eqb Ascii.eqb Bool.eqb sent dom mret JS_ret].
  rewrite Hel, Hclient, Hid, Hstatus.
  reflexivity.
Qed.

(** X5.  A first listed request that is no object with a string [status]
    (null, a number, a string, an object whose [status] is missing or is no
    string) stops the rendering: a TypeError is logged and the page stays as
    it was, also when well-formed requests follow in the list. *)
Theorem fetchRequests_malformed_first
    (res : response) (o : gmap string jsval) (r : jsval) (rest : list jsval)
    (w : world) :
  res_ok res = true →
  json_body res = Some (JObj o) →
  o !! "requests" = Some (JArr (r :: rest)) →
  (∀ f status, r = JObj f → f !! "status" ≠ Some (JStr status)) →
  fetchRequests (Resolved res) w =
    (Normal tt,
     logged "Failed to fetch pairing requests" TypeError
       (sent (GET "/daemon/pairing/requests") w)).
Proof.
  intros Hok Hbody Hr Hbad.
  rewrite (fetchRequests_first res o r rest) by done.
  unfold try_catch, mbind, JS_bind, getElementById.
  cbn [String.eqb Ascii.eqb Bool.eqb sent dom mret JS_ret].
  destruct r as [| |b|n|s|l|f]; try reflexivity.
  unfold get, subst, call_toUpperCase. cbn [mret JS_ret throw].
  destruct (to_string (js_or _ _)); [|reflexivity].
  destruct (to_string (default JUndefined (f !! "request_id"))); [|reflexivity].
  destruct (f !! "status") as [[]|] eqn:Hst; try reflexivity.
  exfalso. by apply (Hbad f _ eq_refl Hst).
Qed.

(** X6.  What counts as no request.  On a page that has [#daemon-content],
    a 2xx response shows the empty state when [requests] is the empty array,
    and also when it is no list at all: a boolean, a number, or an object
    without [length]. *)
Theorem fetchRequests_nothing_listed
    (res : response) (o : gmap string jsval) (v : jsval) (c : string) (w : world) :
  res_ok res = true →
  json_body res = Some (JObj o) →
  o !! "requests" = Some v →
  content (dom w) = Some c →
  v = JArr []
    ∨ (∃ b, v = JBool b)
    ∨ (∃ n, v = JNum n)
    ∨ (∃ f, v = JObj f ∧ f !! "length" = None) →
  fetchRequests (Resolved res) w =
    (Normal tt, rendered empty_state (sent (GET "/daemon/pairing/requests") w)).
Proof.
  intros Hok Hbody Hv Hel Hshape.
  unfold fetchRequests, try_catch, mbind, JS_bind, fetch, res_json.
  rewrite Hok, Hbody. cbn [negb mret JS_ret].
  unfold getElementById. cbn [String.eqb Ascii.eqb Bool.eqb sent dom].
  rewrite Hel. unfold get at 1. cbn [mret JS_ret]. rewrite Hv.
  cbn [from_option Datatypes.id].
  destruct Hshape as [->|[[b ->]|[[n ->]|(f & -> & Hlen)]]].
  - unfold js_or, get. cbn [truthy String.eqb Ascii.eqb Bool.eqb mret JS_ret length].
    by rewrite ?truthy_length, ?num_truthy_of_nat.
  - unfold js_or. cbn [truthy]. destruct b.
    + reflexivity.
    + unfold get. cbn [String.eqb Ascii.eqb Bool.eqb mret JS_ret length].
      by rewrite ?truthy_length, ?num_truthy_of_nat.
  - unfold js_or. cbn [truthy]. destruct (num_truthy n).
    + reflexivity.
    + unfold get. cbn [String.eqb Ascii.eqb Bool.eqb mret JS_ret length].
      by rewrite ?truthy_length, ?num_truthy_of_nat.
  - unfold js_or, get. cbn [truthy mret JS_ret]. by rewrite Hlen.
Qed.

(** X7.  [approve] never looks at the HTTP status: two responses whose
    bodies parse alike lead to the same world whatever their status codes,
    so a body [{ok: true, status: "approved"}] counts as a success under a
    500 as under a 200. *)
Theorem approve_ignores_http_status
    (id : string) (res1 res2 : response) (w : world) :
  json_body res1 = json_body res2 →
  approve id (Resolved res1) w = approve id (Resolved res2) w.
Proof.
  intros Hbody.
  unfold approve, try_catch, mbind, JS_bind, fetch, res_json.
  by rewrite Hbody.
Qed.

(** Every way [approve] can end once it has its response: an error is
    logged, or (on a page that has the status row) the row gets one of the
    two messages, the window being set to close behind the trusted one. *)
Lemma approve_after_json_cases (res : response) (P : world) :
  (∃ e, (approve_after_json res P).2 = logged "Failed to approve pairing" e P)
  ∨ is_Some (status_row (dom P))
    ∧ ((approve_after_json res P).2 = row_text failed_message P
       ∨ (approve_after_json res P).2 =
           after_timeout cb_window_close 1500 (row_text trusted_message P)).
Proof.
  set (N := λ (_ : unit) (w' : world),
    (∃ e, w' = logged "Failed to approve pairing" e P)
    ∨ is_Some (status_row (dom P))
      ∧ (w' = row_text failed_message P
         ∨ w' = after_timeout cb_window_close 1500 (row_text trusted_message P))).
  set (T := λ (_ : exn) (w' : world), w' = P).
  assert (ends (approve_after_json res) P N (λ _ _, False)) as Hends.
  { unfold approve_after_json. apply ends_try_catch.
    apply (ends_weaken _ _ N _ T); [|done|].
    2:{ intros e w' ->. unfold ends, console_error. left. by exists e. }
    ends_read. unfold approve_show.
    apply ends_bind. unfold ends at 1, getElementById.
    cbn [String.eqb Ascii.eqb Bool.eqb].
    do 2 ends_read.
    destruct (status_row (dom P)) as [t|] eqn:Hrow;
      destruct a1; unfold ends, mbind, JS_bind, set_textContent, setTimeout; try done.
    - right. split; [done|]. by right.
    - right. split; [done|]. by left.
  }
  unfold ends in Hends.
  destruct (approve_after_json res P) as [[[]|e] w']; [exact Hends|done].
Qed.

(** Every way [approve] can end: an error is logged, or (on a page that has
    the status row) the row gets one of the two messages, the window being
    set to close behind the trusted one. *)
Lemma approve_cases (id : string) (net : fetch_outcome) (w : world) :
  (∃ e, (approve id net w).2 =
          logged "Failed to approve pairing" e
            (sent (POST "/daemon/pairing/approve" id) w))
  ∨ is_Some (status_row (dom w))
    ∧ ((approve id net w).2 =
         row_text failed_message (sent (POST "/daemon/pairing/approve" id) w)
       ∨ (approve id net w).2 =
           after_timeout cb_window_close 1500
             (row_text trusted_message
                (sent (POST "/daemon/pairing/approve" id) w))).
Proof.
  rewrite approve_in_pieces. destruct net as [|res].
  - left. by exists NetworkError.
  - apply (approve_after_json_cases res (sent (POST "/daemon/pairing/approve" id) w)).
Qed.

(** X8.  What [approve] does to the world, on every answer and every page.
    It sends its POST and never touches the interval timer or the window.
    Then exactly one of three things: an error is logged, and the page and
    the timers stay as they were; or, on a page that has the status row
    only, the row says "Failed to approve flake." and no timer is set; or
    the row shows the trusted message and [window.close] is set to run after
    1500 ms.  So the window is closed only behind the trusted message. *)
Theorem approve_effect (id : string) (net : fetch_outcome) (w : world) :
  network (approve id net w).2 = network w ++ [POST "/daemon/pairing/approve" id]
  ∧ intervals (approve id net w).2 = intervals w
  ∧ closed (approve id net w).2 = closed w
  ∧ ((∃ e, console (approve id net w).2 =
             console w ++ [("Failed to approve pairing", e)])
       ∧ dom (approve id net w).2 = dom w
       ∧ timeouts (approve id net w).2 = timeouts w
     ∨ is_Some (status_row (dom w))
       ∧ console (approve id net w).2 = console w
       ∧ (status_row (dom (approve id net w).2) = Some failed_message
            ∧ timeouts (approve id net w).2 = timeouts w
          ∨ status_row (dom (approve id net w).2) = Some trusted_message
            ∧ timeouts (approve id net w).2 =
                timeouts w ++ [(cb_window_close, 1500)])).
Proof.
  destruct (approve_cases id net w) as [[e ->]|[Hrow [->| ->]]]; simpl.
  - split_and!; try done. left. eauto.
  - split_and!; try done. right. split_and!; try done. by left.
  - split_and!; try done. right. split_and!; try done. by right.
Qed.

(** X9.  Without a truthy [ok] there is no success: on a page that has the
    status row, an answer whose [ok] is missing, false, null, 0 or the empty
    string shows "Failed to approve flake." and sets no timer, also when
    its [status] is "approved". *)
Theorem approve_needs_ok
    (id : string) (res : response) (o : gmap string jsval) (t : string)
    (w : world) :
  json_body res = Some (JObj o) →
  truthy (default JUndefined (o !! "ok")) = false →
  status_row (dom w) = Some t →
  approve id (Resolved res) w =
    (Normal tt,
     row_text failed_message (sent (POST "/daemon/pairing/approve" id) w)).
Proof.
  intros Hbody Hok Hrow.
  unfold approve, try_catch, mbind, JS_bind, fetch, res_json.
  rewrite Hbody.
  unfold getElementById, get.
  cbn [String.eqb Ascii.eqb Bool.eqb sent dom mret JS_ret].
  by rewrite Hrow, Hok.
Qed.

(** X10.  [dismiss] itself never changes the page: the card goes away only
    when the poll it starts renders.  When that poll fails (its [fetch] is
    rejected, or answered outside 200-299, or with a body that is no JSON),
    the page still shows what it showed, after the POST and the GET were
    both sent. *)
Theorem dismiss_leaves_card_when_poll_fails
    (id : string) (res : response) (net' : fetch_outcome) (w : world) :
  net' = Rejected
    ∨ (∃ r, net' = Resolved r ∧ (res_ok r = false ∨ json_body r = None)) →
  dom (dismiss id (Resolved res) net' w).2 = dom w
  ∧ network (dismiss id (Resolved res) net' w).2 =
      network w ++ [POST "/daemon/pairing/dismiss" id;
                    GET "/daemon/pairing/requests"].
Proof.
  intros Hfails.
  assert (dismiss id (Resolved res) net' w =
      fetchRequests net' (sent (POST "/daemon/pairing/dismiss" id) w)) as ->.
  { unfold dismiss. rewrite (try_catch_normal _ _ _ tt); [done|].
    unfold mbind, JS_bind, fetch. apply fetchRequests_returns. }
  split; [|rewrite fetchRequests_network; simpl; by rewrite <- app_assoc].
  unfold fetchRequests, try_catch, mbind, JS_bind, fetch, res_json.
  destruct Hfails as [->|(r & -> & [Hok|Hbody])]; [done| |].
  - by rewrite Hok.
  - destruct (res_ok r); [|done]. by rewrite Hbody.
Qed.

(** A handler that runs with nothing in between is the handler in one
    piece: the session model holds the runs the statements above are
    about. *)
Lemma tick_in_one_piece (net : fetch_outcome) (σ : page_state) (ms : Z) :
  awaiting σ = [] →
  intervals (current σ) = [(cb_fetchRequests, ms)] →
  current (session [Tick; Settle 0 net; Settle 0 net] σ)
  = fire_intervals net (current σ).
Proof.
  intros Hnone Hint. unfold fire_intervals. rewrite Hint.
  cbn [foldl fst run_callback]. rewrite fetchRequests_in_pieces.
  unfold session. cbn [foldl handle]. rewrite Hint.
  cbn [foldl fst fire call_fetchRequests current awaiting]. rewrite Hnone.
  cbn [app lookup list_lookup resume].
  destruct net as [|res]; [done|].
  destruct (res_ok res); done.
Qed.

Lemma approve_in_one_piece (id : string) (net : fetch_outcome) (σ : page_state) :
  awaiting σ = [] →
  current (session [Click_approve id; Settle 0 net; Settle 0 net] σ)
  = (approve id net (current σ)).2.
Proof.
  intros Hnone. rewrite approve_in_pieces.
  unfold session. cbn [foldl handle call_approve current awaiting]. rewrite Hnone.
  cbn [app lookup list_lookup resume].
  by destruct net as [|res].
Qed.

Lemma dismiss_in_one_piece (id : string) (net net' : fetch_outcome) (σ : page_state) :
  awaiting σ = [] →
  current (session [Click_dismiss id; Settle 0 net; Settle 0 net'; Settle 0 net'] σ)
  = (dismiss id net net' (current σ)).2.
Proof.
  intros Hnone.
  assert (dismiss id net net' (current σ) =
    match net with
    | Rejected =>
        (Normal tt,
         logged "Failed to dismiss pairing request" NetworkError
           (sent (POST "/daemon/pairing/dismiss" id) (current σ)))
    | Resolved _ =>
        fetchRequests net' (sent (POST "/daemon/pairing/dismiss" id) (current σ))
    end) as ->.
  { destruct net as [|res]; [done|]. unfold dismiss.
    rewrite (try_catch_normal _ _ _ tt); [done|].
    unfold mbind, JS_bind, fetch. apply fetchRequests_returns. }
  unfold session. cbn [foldl handle call_dismiss current awaiting]. rewrite Hnone.
  cbn [app lookup list_lookup resume].
  destruct net as [|res]; [done|].
  rewrite fetchRequests_in_pieces.
  cbn [delete list_delete app lookup list_lookup resume current awaiting].
  destruct net' as [|res']; [done|].
  destruct (res_ok res'); done.
Qed.





End Outcomes.
(** * The statements at work *)

Section Examples.
Import PollingGateway.
#[local] Existing Instance ascii_host.
#[local] Existing Instance by_address.

(** C9 on the served page: the body [{}]. *)
Lemma missing_requests_shows_empty_state_witness :
  content
    (dom (fetchRequests
            (Resolved {| http_status := 200; json_body := Some (JObj ∅) |})
            (loaded served_page)).2) = Some empty_state.
Proof.
  destruct (missing_requests_shows_empty_state
              {| http_status := 200; json_body := Some (JObj ∅) |} (JObj ∅)
              (loaded served_page)) as [_ Hshown].
  - reflexivity.
  - reflexivity.
  - discriminate.
  - discriminate.
  - intros o [= <-]. left. reflexivity.
  - destruct (Hshown EmptyString eq_refl) as (_ & Hcontent & _). exact Hcontent.
Defined.

(** C9, against the claim: the body [null] has no [requests] either, and
    reading [requests] of it throws.  The error is logged and the page stays
    as it was served, where the body [{requests: []}] brings the empty
    state. *)
Lemma null_body_shows_no_empty_state :
  res_ok {| http_status := 200; json_body := Some JNull |} = true
  ∧ console
      (fetchRequests
         (Resolved {| http_status := 200; json_body := Some JNull |})
         (loaded served_page)).2
    = [("Failed to fetch pairing requests", TypeError)]
  ∧ content
      (dom (fetchRequests
              (Resolved {| http_status := 200; json_body := Some JNull |})
              (loaded served_page)).2)
    = Some EmptyString
  ∧ content
      (dom (fetchRequests
              (Resolved {| http_status := 200;
                           json_body := Some (JObj {[ "requests" := JArr [] ]}) |})
              (loaded served_page)).2)
    = Some ("<p class=" ++ String "034" "daemon-empty"
              ++ String "034" ">No pending pairing requests.</p>")%string
  ∧ fetchRequests
      (Resolved {| http_status := 200; json_body := Some JNull |})
      (loaded served_page)
    ≠ fetchRequests
        (Resolved {| http_status := 200;
                     json_body := Some (JObj {[ "requests" := JArr [] ]}) |})
        (loaded served_page).
Proof.
  split_and!; [reflexivity|reflexivity|reflexivity|vm_compute; reflexivity|].
  intros Hsame. apply (f_equal (λ run, length (console run.2))) in Hsame.
  vm_compute in Hsame. discriminate.
Qed.

(** C7 on the served page: a 500, and a 200 whose body is no JSON. *)
Lemma poller_ignores_failures_and_retries_witness :
  dom (fetchRequests
         (Resolved {| http_status := 500; json_body := None |})
         (loaded served_page)).2 = served_page
  ∧ dom (fetchRequests
           (Resolved {| http_status := 200; json_body := None |})
           (loaded served_page)).2 = served_page.
Proof.
  destruct (poller_ignores_failures_and_retries
              {| http_status := 500; json_body := None |}
              {| http_status := 200; json_body := None |}
              (loaded served_page))
    as [(_ & _ & Hbad & Hunparsable & _) _].
  - reflexivity.
  - reflexivity.
  - reflexivity.
  - split; [exact Hbad|exact Hunparsable].
Defined.

(** C7, against the claim: on the served page a 500 leaves the console
    empty and a 200 whose body is no JSON writes a line to it, so the two
    are not treated identically. *)
Lemma parse_failure_is_logged_bad_status_is_not :
  console
    (fetchRequests
       (Resolved {| http_status := 500; json_body := None |})
       (loaded served_page)).2 = []
  ∧ console
      (fetchRequests
         (Resolved {| http_status := 200; json_body := None |})
         (loaded served_page)).2
    = [("Failed to fetch pairing requests", SyntaxError)]
  ∧ fetchRequests
      (Resolved {| http_status := 500; json_body := None |})
      (loaded served_page)
    ≠ fetchRequests
        (Resolved {| http_status := 200; json_body := None |})
        (loaded served_page).
Proof. split_and!; [reflexivity|reflexivity|discriminate]. Qed.

(** C8 on a page with a card: the answer [{ok: true, status: "approved"}]. *)
Lemma approve_compares_status_exactly_witness :
  status_row
    (dom (approve "r0"
            (Resolved {| http_status := 200;
                         json_body := Some (approve_answer true "approved") |})
            (loaded card_page)).2) = Some trusted_message.
Proof.
  rewrite (approve_compares_status_exactly "r0" 200 "approved" EmptyString
             (loaded card_page)).
  - reflexivity.
  - reflexivity.
Defined.

(** C8, against the claim: the answer [{ok: true, status: "APPROVED"}] has
    the letters of "approved", and the row says the approval failed. *)
Lemma approve_rejects_capitals :
  toUpperCase "APPROVED" = toUpperCase "approved"
  ∧ status_row
      (dom (approve "r0"
              (Resolved {| http_status := 200;
                           json_body := Some (approve_answer true "APPROVED") |})
              (loaded card_page)).2) = Some failed_message
  ∧ failed_message ≠ trusted_message.
Proof. split_and!; [reflexivity|vm_compute; reflexivity|discriminate]. Qed.

(** C6 on the two requests: the card is the one of the request admitted
    first. *)
Lemma fetchRequests_shows_first_listed_witness :
  (RequestStore.list_pending 30 two_requests).1 = [first_request; second_request]
  ∧ content
      (dom (fetchRequests
              (Resolved
                 (requests_response
                    (PairingService.view_of
                       <$> (RequestStore.list_pending 30 two_requests).1)))
              (loaded served_page)).2)
    = Some (card_of (PairingService.view_of first_request))
  ∧ oldest (RequestStore.list_pending 30 two_requests).1 first_request.
Proof.
  assert ((RequestStore.list_pending 30 two_requests).1
            = [first_request; second_request]) as Hl by (vm_compute; reflexivity).
  destruct (fetchRequests_shows_first_listed 30 two_requests first_request
              [second_request] EmptyString (loaded served_page) Hl eq_refl)
    as (Hshown & Hold & _).
  split_and!; [exact Hl| |exact Hold].
  rewrite Hshown. reflexivity.
Defined.

(** C6, against the claim: two pending requests are listed, the page shows
    the card of the first, and the second is the more recent one. *)
Lemma first_listed_is_not_most_recent :
  (RequestStore.list_pending 30 two_requests).1 = [first_request; second_request]
  ∧ content
      (dom (fetchRequests
              (Resolved
                 (requests_response
                    (PairingService.view_of
                       <$> (RequestStore.list_pending 30 two_requests).1)))
              (loaded served_page)).2)
    = Some (card_of (PairingService.view_of first_request))
  ∧ most_recent (RequestStore.list_pending 30 two_requests).1 second_request
  ∧ ¬ most_recent (RequestStore.list_pending 30 two_requests).1 first_request
  ∧ card_of (PairingService.view_of first_request)
    ≠ card_of (PairingService.view_of second_request).
Proof.
  assert ((RequestStore.list_pending 30 two_requests).1
            = [first_request; second_request]) as Hl by (vm_compute; reflexivity).
  rewrite Hl. split_and!.
  - reflexivity.
  - vm_compute. reflexivity.
  - split; [apply list_elem_of_further, list_elem_of_here|].
    intros r' [->|[->|[]%elem_of_nil]%elem_of_cons]%elem_of_cons; simpl; lia.
  - intros [_ Hmax].
    specialize (Hmax second_request (list_elem_of_further _ _ _ (list_elem_of_here _ _))).
    simpl in Hmax. lia.
  - vm_compute. discriminate.
Qed.

(** C2 on the two requests, the first of them approved. *)
Lemma status_leaves_pending_once_witness :
  ∃ r',
    RequestStore.requests
      (RequestStore.run
         ((two_admissions ++ [RequestStore.Transition 0 approved])
          ++ [RequestStore.Transition 0 dismissed; RequestStore.ListPending 9999])
         (RequestStore.empty 8 3600)) !! 0%nat = Some r'
    ∧ status r' = approved.
Proof.
  destruct (status_leaves_pending_once 8 3600
              (two_admissions ++ [RequestStore.Transition 0 approved]) 0
              (with_status approved first_request))
    as (_ & Hstays & _).
  - vm_compute. reflexivity.
  - apply (Hstays ltac:(discriminate)
             [RequestStore.Transition 0 dismissed; RequestStore.ListPending 9999]).
Defined.

(** C3 on the two requests: the first is dismissed, once. *)
Lemma dismiss_is_idempotent_witness :
  (∃ r',
     RequestStore.requests
       (PairingService.store (PairingService.dismiss 0 example_service).2) !! 0%nat
     = Some r'
     ∧ status r' = dismissed
     ∧ RequestStore.requests
         (PairingService.store
            (PairingService.dismiss 0 (PairingService.dismiss 0 example_service).2).2)
         !! 0%nat
       = Some r')
  ∧ PairingService.dismiss 0 (PairingService.dismiss 0 example_service).2
    = (true, (PairingService.dismiss 0 example_service).2).
Proof.
  destruct (dismiss_is_idempotent 0 example_service)
    as (_ & Htwice & _ & Hpending & _).
  split; [|exact Htwice].
  destruct (Hpending first_request) as (_ & r' & Hnow & Hstatus & _ & _ & _ & Hlater).
  - vm_compute. reflexivity.
  - reflexivity.
  - exists r'. split_and!; [exact Hnow|exact Hstatus|exact (Hlater 1%nat)].
Defined.

(** C4 on a ledger that trusts the client already. *)
Lemma grant_is_idempotent_witness :
  TrustLedger.grant "10.0.0.5" 9 one_client = (false, one_client)
  ∧ TrustLedger.records "10.0.0.5" (TrustLedger.grant "10.0.0.5" 9 one_client).2
    = [{| client_id := "10.0.0.5"; granted_at := 5 |}].
Proof.
  destruct (grant_is_idempotent "10.0.0.5" 9 10 one_client) as (Htrusted & _ & _).
  - apply NoDup_singleton.
  - destruct Htrusted as (Hsame & c & Hc & Hafter & _); [vm_compute; reflexivity|].
    split; [exact Hsame|]. rewrite Hafter, <- Hc. vm_compute. reflexivity.
Defined.

(** C5 on the two requests: both are listed at 30, none at 5000. *)
Lemma list_pending_contract_witness :
  StronglySorted older (RequestStore.list_pending 30 two_requests).1
  ∧ first_request ∈ (RequestStore.list_pending 30 two_requests).1.
Proof.
  destruct (list_pending_contract 30 two_requests [])
    as (_ & Hcomplete & Hsorted & _).
  split; [exact Hsorted|].
  apply (Hcomplete 0%nat); vm_compute; reflexivity.
Defined.

(** C1 on four calls for the first request: two of the three calls that
    found the request pending lose at the transition, after their own call
    of the ledger, which told them the client was trusted already. *)
Lemma one_approval_wins_witness :
  Approvals.finished
    (Approvals.run 0 four_calls (Approvals.init example_service 4)) = true
  ∧ Approvals.calls
      (Approvals.run 0 four_calls (Approvals.init example_service 4))
    = [Approvals.Returned (PairingService.already_resolved approved);
       Approvals.Returned (PairingService.already_resolved approved);
       Approvals.Returned PairingService.approved_answer;
       Approvals.Returned (PairingService.already_resolved approved)]
  ∧ Approvals.grant_log
      (Approvals.run 0 four_calls (Approvals.init example_service 4))
    = [(1%nat, true); (0%nat, false); (2%nat, false)]
  ∧ NoDup (Approvals.grantors
             (Approvals.run 0 four_calls (Approvals.init example_service 4)))
  ∧ PairingService.ledger
      (Approvals.service
         (Approvals.run 0 four_calls (Approvals.init example_service 4)))
    = [{| client_id := "10.0.0.5"; granted_at := 33 |}].
Proof.
  destruct (one_approval_wins example_service 0 first_request
              ltac:(vm_compute; reflexivity) eq_refl 4 four_calls ltac:(lia))
    as (Honce & _).
  split_and!; [vm_compute; reflexivity ..|exact Honce|vm_compute; reflexivity].
Defined.

End Examples.

Section MoreExamples.
#[local] Existing Instance ascii_host.

(** X3 on the served page: one request listed, and the same request
    followed by [null]. *)
Lemma fetchRequests_reads_first_only_witness :
  fetchRequests
    (Resolved (listing [JObj {[ "status" := JStr "pending" ]}]))
    (loaded served_page)
  = fetchRequests
      (Resolved (listing [JObj {[ "status" := JStr "pending" ]}; JNull]))
      (loaded served_page).
Proof.
  apply (fetchRequests_reads_first_only _ _
           {[ "requests" := JArr [JObj {[ "status" := JStr "pending" ]}] ]}
           {[ "requests" := JArr [JObj {[ "status" := JStr "pending" ]}; JNull] ]}
           (JObj {[ "status" := JStr "pending" ]}) [] [JNull]);
    reflexivity.
Defined.

(** X4 on the served page: a request that has a [status] only. *)
Lemma fetchRequests_renders_first_witness :
  content
    (dom (fetchRequests
            (Resolved (listing [JObj {[ "status" := JStr "pending" ]}]))
            (loaded served_page)).2)
  = Some (card "unknown" "undefined" "PENDING" "undefined" "undefined").
Proof.
  rewrite (fetchRequests_renders_first (listing [JObj {[ "status" := JStr "pending" ]}])
             {[ "requests" := JArr [JObj {[ "status" := JStr "pending" ]}] ]}
             {[ "status" := JStr "pending" ]} [] "pending" "unknown" "undefined"
             EmptyString (loaded served_page));
    reflexivity.
Defined.

(** X5 on the served page: [null] listed before a well-formed request. *)
Lemma fetchRequests_malformed_first_witness :
  fetchRequests
    (Resolved (listing [JNull; JObj {[ "status" := JStr "pending" ]}]))
    (loaded served_page)
  = (Normal tt,
     logged "Failed to fetch pairing requests" TypeError
       (sent (GET "/daemon/pairing/requests") (loaded served_page))).
Proof.
  apply (fetchRequests_malformed_first _
           {[ "requests" := JArr [JNull; JObj {[ "status" := JStr "pending" ]}] ]}
           JNull [JObj {[ "status" := JStr "pending" ]}]).
  - reflexivity.
  - reflexivity.
  - reflexivity.
  - intros f status Hf. discriminate Hf.
Defined.

(** X6 on the served page: [requests: true]. *)
Lemma fetchRequests_nothing_listed_witness :
  content
    (dom (fetchRequests
            (Resolved {| http_status := 200;
                         json_body := Some (JObj {[ "requests" := JBool true ]}) |})
            (loaded served_page)).2)
  = Some empty_state.
Proof.
  rewrite (fetchRequests_nothing_listed _ {[ "requests" := JBool true ]}
             (JBool true) EmptyString (loaded served_page)).
  - reflexivity.
  - reflexivity.
  - reflexivity.
  - reflexivity.
  - reflexivity.
  - right. left. by exists true.
Defined.

(** X7 on the page with a card: the same answer under a 500 and a 200. *)
Lemma approve_ignores_http_status_witness :
  approve "r0"
    (Resolved {| http_status := 500;
                 json_body := Some (approve_answer true "approved") |})
    (loaded card_page)
  = approve "r0"
      (Resolved {| http_status := 200;
                   json_body := Some (approve_answer true "approved") |})
      (loaded card_page).
Proof. apply approve_ignores_http_status. reflexivity. Defined.

(** X9 on the page with a card: the answer [{status: "approved"}]. *)
Lemma approve_needs_ok_witness :
  status_row
    (dom (approve "r0"
            (Resolved {| http_status := 200;
                         json_body := Some (JObj {[ "status" := JStr "approved" ]}) |})
            (loaded card_page)).2)
  = Some failed_message.
Proof.
  rewrite (approve_needs_ok "r0" _ {[ "status" := JStr "approved" ]} EmptyString
             (loaded card_page)).
  - reflexivity.
  - reflexivity.
  - reflexivity.
  - reflexivity.
Defined.

(** X10 on the page with a card: the dismissal is answered, the poll after
    it gets a 503. *)
Lemma dismiss_leaves_card_when_poll_fails_witness :
  dom (dismiss "r0"
         (Resolved {| http_status := 200; json_body := None |})
         (Resolved {| http_status := 503; json_body := None |})
         (loaded card_page)).2
  = card_page.
Proof.
  destruct (dismiss_leaves_card_when_poll_fails "r0"
              {| http_status := 200; json_body := None |}
              (Resolved {| http_status := 503; json_body := None |})
              (loaded card_page)) as [Hdom _].
  - right. exists {| http_status := 503; json_body := None |}.
    split; [reflexivity|]. left. reflexivity.
  - exact Hdom.
Defined.

End MoreExamples.
